(** * workflow_api.py: value resolution, bootstrap and the fixed pipeline

    A shallow embedding of [src/workflow_api.py].  Python values are an
    inductive type, exceptions are an explicit result type, and the
    stateful parts (the locals of [main], [sys.path], standard output and
    the world behind the external node implementations) are threaded
    through a small state-and-exception monad. *)

From Stdlib Require Import List String Ascii ZArith Lia Bool Arith.
From Equations Require Import Equations.
Import ListNotations.
Local Open Scope string_scope.
Local Open Scope Z_scope.

(** ** Python values *)

(** Subscript keys that occur in the program: integers and strings. *)
Inductive key :=
| KInt (z : Z)
| KStr (s : string).

#[warnings="-register-all"]
Inductive value :=
| VNone
| VInt (z : Z)
| VFloat (literal : string)          (* a float, kept as its literal text *)
| VStr (s : string)
| VList (xs : list value)            (* a list or a tuple *)
| VDict (items : list (key * value)) (* a dict, in insertion order *)
| VObj (cls : string) (oid : nat)    (* an instance of a node class *)
| VOpaque (handle : nat).            (* a model, tensor, ... not subscripted here *)

(** The exceptions the program can meet.  [Failure] stands for whatever an
    external operation raises on its own. *)
Inductive exn :=
| KeyError (k : key)
| IndexError
| TypeError
| UnboundLocalError
| Failure (what : string).

Inductive result (A : Type) :=
| Ok (a : A)
| Raise (e : exn).
Arguments Ok {A} a.
Arguments Raise {A} e.

(** [LookupError] is the common base class of [KeyError] and [IndexError]. *)
Definition is_LookupError (e : exn) : bool :=
  match e with
  | KeyError _ | IndexError => true
  | _ => false
  end.

Definition key_eqb (a b : key) : bool :=
  match a, b with
  | KInt x, KInt y => Z.eqb x y
  | KStr x, KStr y => String.eqb x y
  | _, _ => false
  end.

Fixpoint dict_get (k : key) (items : list (key * value)) : option value :=
  match items with
  | [] => None
  | (k', v) :: rest => if key_eqb k k' then Some v else dict_get k rest
  end.

(** [xs[i]] on a sequence: negative indices count from the end, anything
    outside [-len, len) raises [IndexError]. *)
Definition seq_index {A : Type} (xs : list A) (i : Z) : result A :=
  let n := Z.of_nat (List.length xs) in
  let j := if i <? 0 then i + n else i in
  if (0 <=? j) && (j <? n)
  then match nth_error xs (Z.to_nat j) with
       | Some x => Ok x
       | None => Raise IndexError
       end
  else Raise IndexError.

Definition char_string (c : ascii) : value := VStr (String c EmptyString).

(** Python's [obj[k]]. *)
Definition getitem (obj : value) (k : key) : result value :=
  match obj, k with
  | VList xs, KInt i => seq_index xs i
  | VList _, KStr _ => Raise TypeError
  | VStr s, KInt i =>
      match seq_index (list_ascii_of_string s) i with
      | Ok c => Ok (char_string c)
      | Raise e => Raise e
      end
  | VStr _, KStr _ => Raise TypeError
  | VDict items, _ =>
      match dict_get k items with
      | Some v => Ok v
      | None => Raise (KeyError k)
      end
  | _, _ => Raise TypeError
  end.

(** [Union[Sequence, Mapping]], the declared domain of
    [get_value_at_index]. *)
Definition is_container (obj : value) : bool :=
  match obj with
  | VList _ | VStr _ | VDict _ => true
  | _ => false
  end.

(** [try: return obj[index]  except KeyError: return obj["result"][index]] *)
Definition get_value_at_index (obj : value) (index : Z) : result value :=
  match getitem obj (KInt index) with
  | Raise (KeyError _) =>
      match getitem obj (KStr "result") with
      | Ok sub => getitem sub (KInt index)
      | Raise e => Raise e
      end
  | r => r
  end.

(** The fallback route on its own: [obj["result"][index]]. *)
Definition fallback_lookup (obj : value) (index : Z) : result value :=
  match getitem obj (KStr "result") with
  | Ok sub => getitem sub (KInt index)
  | Raise e => Raise e
  end.

(** Resolution as the specification words it: the fallback is taken
    whenever positional indexing fails, whatever the failure.  Kept apart
    from [get_value_at_index] to be compared with it. *)
Definition resolve_as_specified (obj : value) (index : Z) : result value :=
  match getitem obj (KInt index) with
  | Ok v => Ok v
  | Raise _ => fallback_lookup obj index
  end.

(** Resolution as the specification words it, as a property: for a
    container and a non-negative index, whenever positional indexing fails the result is that of the
    fallback route. *)
Definition fallback_on_any_failure (obj : value) (i : Z) : Prop :=
  is_container obj = true -> 0 <= i ->
  forall e, getitem obj (KInt i) = Raise e ->
            get_value_at_index obj i = fallback_lookup obj i.

(** ** Paths, as [posixpath] computes them *)

Definition is_sep (c : ascii) : bool := Ascii.eqb c "/".

(** [p[:p.rfind("/") + 1]]: the longest prefix that ends with a slash. *)
Fixpoint upto_last_slash (p : string) : string :=
  match p with
  | EmptyString => EmptyString
  | String c rest =>
      let head := upto_last_slash rest in
      if is_sep c then String c head
      else match head with
           | EmptyString => EmptyString
           | _ => String c head
           end
  end.

Fixpoint all_slashes (p : string) : bool :=
  match p with
  | EmptyString => true
  | String c rest => is_sep c && all_slashes rest
  end.

(** [p.rstrip("/")] *)
Fixpoint rstrip_slash (p : string) : string :=
  match p with
  | EmptyString => EmptyString
  | String c rest =>
      match rstrip_slash rest with
      | EmptyString => if is_sep c then EmptyString else String c EmptyString
      | rest' => String c rest'
      end
  end.

(** [os.path.dirname] *)
Definition dirname (p : string) : string :=
  let head := upto_last_slash p in
  if negb (String.eqb head "") && negb (all_slashes head)
  then rstrip_slash head
  else head.

Definition starts_with_sep (p : string) : bool :=
  match p with
  | String c _ => is_sep c
  | EmptyString => false
  end.

Fixpoint ends_with_sep (p : string) : bool :=
  match p with
  | EmptyString => false
  | String c EmptyString => is_sep c
  | String _ rest => ends_with_sep rest
  end.

(** [os.path.join] of two components *)
Definition join (a b : string) : string :=
  if starts_with_sep b then b
  else if String.eqb a "" || ends_with_sep a then a ++ b
  else a ++ "/" ++ b.

Lemma upto_last_slash_length (p : string) :
  (String.length (upto_last_slash p) <= String.length p)%nat.
Proof.
  induction p as [| c rest IH]; simpl; [lia |].
  destruct (is_sep c); [simpl; lia |].
  destruct (upto_last_slash rest); simpl in *; lia.
Qed.

Lemma upto_last_slash_full (p : string) :
  String.length (upto_last_slash p) = String.length p ->
  upto_last_slash p = p.
Proof.
  induction p as [| c rest IH]; simpl; [reflexivity |].
  pose proof (upto_last_slash_length rest) as Hle.
  destruct (is_sep c).
  - simpl. intros H. f_equal. apply IH. lia.
  - destruct (upto_last_slash rest) eqn:Hr; simpl in *; [discriminate |].
    intros H. f_equal. apply IH. lia.
Qed.

Lemma rstrip_slash_length (p : string) :
  (String.length (rstrip_slash p) <= String.length p)%nat.
Proof.
  induction p as [| c rest IH]; simpl; [lia |].
  destruct (rstrip_slash rest); [destruct (is_sep c) |]; simpl in *; lia.
Qed.

Lemma rstrip_slash_full (p : string) :
  String.length (rstrip_slash p) = String.length p -> rstrip_slash p = p.
Proof.
  induction p as [| c rest IH]; simpl; [reflexivity |].
  pose proof (rstrip_slash_length rest) as Hle.
  destruct (rstrip_slash rest) eqn:Hr.
  - destruct (is_sep c); simpl in *; [discriminate |].
    intros H. f_equal. apply IH. lia.
  - simpl in *. intros H. f_equal. apply IH. lia.
Qed.

(** Each step towards the root strictly shortens the path, until the
    fixed point ("/", "" and the like) is reached. *)
Lemma dirname_shorter (p : string) :
  dirname p <> p -> (String.length (dirname p) < String.length p)%nat.
Proof.
  unfold dirname. intros Hne.
  pose proof (upto_last_slash_length p) as H1.
  pose proof (rstrip_slash_length (upto_last_slash p)) as H2.
  destruct (negb (upto_last_slash p =? "")%string
            && negb (all_slashes (upto_last_slash p))).
  - destruct (Nat.eq_dec (String.length (rstrip_slash (upto_last_slash p)))
                         (String.length p)) as [Heq | Hlt]; [| lia].
    exfalso. apply Hne.
    assert (Hu : upto_last_slash p = p) by (apply upto_last_slash_full; lia).
    rewrite Hu in *. apply rstrip_slash_full. exact Heq.
  - destruct (Nat.eq_dec (String.length (upto_last_slash p))
                         (String.length p)) as [Heq | Hlt]; [| lia].
    exfalso. apply Hne. apply upto_last_slash_full. exact Heq.
Qed.

(** ** The local variables of [main] *)

Inductive var :=
| checkpointloadersimple | checkpointloadersimple_4
| cliptextencode | cliptextencode_6 | cliptextencode_7
| loadimage | loadimage_14
| vaeloader | vaeloader_26
| vaeencode | vaeencode_15
| controlnetloader | controlnetloader_19
| cliptextencode_21 | cliptextencode_24
| controlnetloader_29
| aio_preprocessor | controlnetapplyadvanced | bnk_unsampler
| ksampleradvanced | vaedecode | previewimg | imageupscalewithmodel
| midas_depthmappreprocessor
| q
| aio_preprocessor_44 | controlnetapplyadvanced_25
| aio_preprocessor_43 | controlnetapplyadvanced_30
| bnk_unsampler_13 | ksampleradvanced_16 | vaedecode_8
| midas_depthmappreprocessor_50
| saveImg | finale.

Definition var_tag (x : var) : positive :=
  match x with
  | checkpointloadersimple => 1 | checkpointloadersimple_4 => 2
  | cliptextencode => 3 | cliptextencode_6 => 4 | cliptextencode_7 => 5
  | loadimage => 6 | loadimage_14 => 7
  | vaeloader => 8 | vaeloader_26 => 9
  | vaeencode => 10 | vaeencode_15 => 11
  | controlnetloader => 12 | controlnetloader_19 => 13
  | cliptextencode_21 => 14 | cliptextencode_24 => 15
  | controlnetloader_29 => 16
  | aio_preprocessor => 17 | controlnetapplyadvanced => 18
  | bnk_unsampler => 19 | ksampleradvanced => 20 | vaedecode => 21
  | previewimg => 22 | imageupscalewithmodel => 23
  | midas_depthmappreprocessor => 24
  | q => 25
  | aio_preprocessor_44 => 26 | controlnetapplyadvanced_25 => 27
  | aio_preprocessor_43 => 28 | controlnetapplyadvanced_30 => 29
  | bnk_unsampler_13 => 30 | ksampleradvanced_16 => 31 | vaedecode_8 => 32
  | midas_depthmappreprocessor_50 => 33
  | saveImg => 34 | finale => 35
  end%positive.

Definition var_eqb (x y : var) : bool := Pos.eqb (var_tag x) (var_tag y).

Definition frame_t := list (var * value).

Fixpoint frame_get (x : var) (fr : frame_t) : option value :=
  match fr with
  | [] => None
  | (y, v) :: rest => if var_eqb x y then Some v else frame_get x rest
  end.

Fixpoint frame_set (x : var) (v : value) (fr : frame_t) : frame_t :=
  match fr with
  | [] => [(x, v)]
  | (y, w) :: rest =>
      if var_eqb x y then (x, v) :: rest else (y, w) :: frame_set x v rest
  end.

(** ** Instrumentation: one record per invocation of a node's operation *)

Record event := {
  ev_node : var;                       (* the variable the output is bound to *)
  ev_self : value;                     (* the instance the method is called on *)
  ev_meth : string;
  ev_kwargs : list (string * value);   (* the resolved keyword arguments *)
  ev_frame : frame_t;                  (* the locals when the call is made *)
  ev_outcome : result value            (* what the operation returned or raised *)
}.

(** ** External collaborators *)

(** How a node class is reached: imported from [nodes], or looked up in
    [NODE_CLASS_MAPPINGS]. *)
Inductive class_ref :=
| Imported (name : string)
| Registered (name : string).

Definition class_name (c : class_ref) : string :=
  match c with
  | Imported n | Registered n => n
  end.

(** Everything the file calls and does not define, over a world [W] that
    the operations read and change. *)
Record externals (W : Type) := {
  os_getcwd : W -> result string;
  os_listdir : W -> string -> result (list string);
  os_isdir : W -> string -> bool;
  custom_nodes_init : W -> W * result unit;
  inference_mode_enter : W -> W;
  inference_mode_exit : W -> W;
  instantiate : class_ref -> W -> W * result nat;
  invoke : value -> string -> list (string * value) -> W -> W * result value;
  random_randint : Z -> Z -> W -> W * Z
}.
Arguments os_getcwd {W}.
Arguments os_listdir {W}.
Arguments os_isdir {W}.
Arguments custom_nodes_init {W}.
Arguments inference_mode_enter {W}.
Arguments inference_mode_exit {W}.
Arguments instantiate {W}.
Arguments invoke {W}.
Arguments random_randint {W}.

(** ** Program state and its monad *)

Record state (W : Type) := {
  world : W;
  sys_path : list string;
  stdout : list value;
  frame : frame_t;
  log : list event
}.
Arguments world {W}.
Arguments sys_path {W}.
Arguments stdout {W}.
Arguments frame {W}.
Arguments log {W}.

Definition initial_state {W} (w : W) (path : list string) : state W :=
  {| world := w; sys_path := path; stdout := []; frame := []; log := [] |}.

Definition M (W A : Type) : Type := state W -> state W * result A.

Definition ret {W A} (a : A) : M W A := fun s => (s, Ok a).

Definition raise {W A} (e : exn) : M W A := fun s => (s, Raise e).

Definition bind {W A B} (m : M W A) (k : A -> M W B) : M W B :=
  fun s =>
    match m s with
    | (s', Ok a) => k a s'
    | (s', Raise e) => (s', Raise e)
    end.

Definition lift {W A} (r : result A) : M W A := fun s => (s, r).

Notation "x <- m ;; k" := (bind m (fun x => k))
  (at level 61, m at next level, right associativity).
Notation "m ;; k" := (bind m (fun _ => k))
  (at level 61, right associativity).

Definition set_world {W} (w : W) (s : state W) : state W :=
  {| world := w; sys_path := sys_path s; stdout := stdout s;
     frame := frame s; log := log s |}.

Definition set_frame {W} (fr : frame_t) (s : state W) : state W :=
  {| world := world s; sys_path := sys_path s; stdout := stdout s;
     frame := fr; log := log s |}.

Definition record_event {W} (ev : event) (s : state W) : state W :=
  {| world := world s; sys_path := sys_path s; stdout := stdout s;
     frame := frame s; log := log s ++ [ev] |}.

(** [print(v)] *)
Definition print {W} (v : value) : M W unit :=
  fun s =>
    ({| world := world s; sys_path := sys_path s; stdout := stdout s ++ [v];
        frame := frame s; log := log s |}, Ok tt).

(** [sys.path.append(p)] *)
Definition sys_path_append {W} (p : string) : M W unit :=
  fun s =>
    ({| world := world s; sys_path := sys_path s ++ [p]; stdout := stdout s;
        frame := frame s; log := log s |}, Ok tt).

Definition load {W} (x : var) : M W value :=
  fun s =>
    match frame_get x (frame s) with
    | Some v => (s, Ok v)
    | None => (s, Raise UnboundLocalError)
    end.

Definition store {W} (x : var) (v : value) : M W unit :=
  fun s => (set_frame (frame_set x v (frame s)) s, Ok tt).

Section WithExternals.

Context {W : Type} (E : externals W).

(** ** Bootstrap *)

(** The body of [find_path] once [path] is known: look for [name] in the
    directory, otherwise move to the parent until the parent is the
    directory itself. *)
Equations? find_path_from (name path : string) (s : state W)
  : state W * result (option string) by wf (String.length path) lt :=
find_path_from name path s with os_listdir E (world s) path := {
  | Raise e := (s, Raise e)
  | Ok entries with existsb (String.eqb name) entries := {
    | true :=
        let path_name := join path name in
        (fst (print (VStr (name ++ " found: " ++ path_name)) s),
         Ok (Some path_name))
    | false with string_dec (dirname path) path := {
      | left _ := (s, Ok None)
      | right Hparent := find_path_from name (dirname path) s } } }.
Proof. apply dirname_shorter. exact Hparent. Qed.

(** [find_path(name, path=None)]: the default is the working directory. *)
Definition find_path (name : string) (path : option string)
  : M W (option string) :=
  match path with
  | None => fun s =>
      match os_getcwd E (world s) with
      | Ok cwd => find_path_from name cwd s
      | Raise e => (s, Raise e)
      end
  | Some p => find_path_from name p
  end.

Definition add_comfyui_directory_to_sys_path : M W unit :=
  comfyui_path <- find_path "ComfyUI" None ;;
  match comfyui_path with
  | None => ret tt
  | Some p => fun s =>
      if os_isdir E (world s) p
      then (sys_path_append p ;;
            print (VStr ("'" ++ p ++ "' added to sys.path"))) s
      else (s, Ok tt)
  end.

(** ** Nodes *)

(** What a keyword argument of a node call is written as. *)
Inductive arg :=
| Lit (v : value)                 (* a literal *)
| Out (node : var) (index : Z)    (* get_value_at_index(node, index) *)
| Sub (node : var) (index : Z)    (* node[index] *)
| Randint (lo hi : Z).            (* random.randint(lo, hi) *)

(** [target = self.meth(kwargs)] *)
Record node_decl := {
  nd_id : var;
  nd_self : var;
  nd_meth : string;
  nd_kwargs : list (string * arg)
}.

Definition eval_arg (a : arg) : M W value :=
  match a with
  | Lit v => ret v
  | Out x i => obj <- load x ;; lift (get_value_at_index obj i)
  | Sub x i => obj <- load x ;; lift (getitem obj (KInt i))
  | Randint lo hi => fun s =>
      let (w, z) := random_randint E lo hi (world s) in
      (set_world w s, Ok (VInt z))
  end.

(** Keyword arguments are evaluated left to right, before the call. *)
Fixpoint eval_kwargs (kws : list (string * arg))
  : M W (list (string * value)) :=
  match kws with
  | [] => ret []
  | (name, a) :: rest =>
      v <- eval_arg a ;;
      vs <- eval_kwargs rest ;;
      ret ((name, v) :: vs)
  end.

(** The external operation itself, instrumented: the call is recorded
    with the locals of that moment and with its outcome. *)
Definition call_method (target : var) (self : value) (meth : string)
    (kwargs : list (string * value)) : M W value :=
  fun s =>
    let (w, r) := invoke E self meth kwargs (world s) in
    (record_event {| ev_node := target; ev_self := self; ev_meth := meth;
                     ev_kwargs := kwargs; ev_frame := frame s;
                     ev_outcome := r |}
                  (set_world w s),
     r).

Definition node (d : node_decl) : M W unit :=
  self <- load (nd_self d) ;;
  kwargs <- eval_kwargs (nd_kwargs d) ;;
  out <- call_method (nd_id d) self (nd_meth d) kwargs ;;
  store (nd_id d) out.

(** [x = Class()] and [x = NODE_CLASS_MAPPINGS[name]()] *)
Definition new (x : var) (c : class_ref) : M W unit :=
  fun s =>
    match instantiate E c (world s) with
    | (w, Ok oid) => store x (VObj (class_name c) oid) (set_world w s)
    | (w, Raise e) => (set_world w s, Raise e)
    end.

(** [import_custom_nodes()]: event loop, prompt server and queue, then
    [init_custom_nodes()], all of them external. *)
Definition import_custom_nodes : M W unit :=
  fun s =>
    let (w, r) := custom_nodes_init E (world s) in (set_world w s, r).

(** [with torch.inference_mode(): body]; the mode is left however the
    body ends, and an exception of the body goes on. *)
Definition with_inference_mode {A} (body : M W A) : M W A :=
  fun s =>
    let (s', r) := body (set_world (inference_mode_enter E (world s)) s) in
    (set_world (inference_mode_exit E (world s')) s', r).

Fixpoint for_range_from (x : var) (i : Z) (n : nat) (body : M W unit)
  : M W unit :=
  match n with
  | O => ret tt
  | S n' => store x (VInt i) ;; body ;; for_range_from x (i + 1) n' body
  end.

(** [for x in range(n): body] *)
Definition for_range (x : var) (n : nat) (body : M W unit) : M W unit :=
  for_range_from x 0 n body.

(** ** The pipeline *)

Definition newline : string := String (ascii_of_nat 10) EmptyString.

Definition decl_checkpointloadersimple_4 : node_decl :=
  {| nd_id := checkpointloadersimple_4; nd_self := checkpointloadersimple;
     nd_meth := "load_checkpoint";
     nd_kwargs :=
       [("ckpt_name", Lit (VStr "DisneyPixarCartoontypeB.safetensors"))] |}.

Definition decl_cliptextencode_6 : node_decl :=
  {| nd_id := cliptextencode_6; nd_self := cliptextencode;
     nd_meth := "encode";
     nd_kwargs :=
       [("text", Lit (VStr "image of a man with grey woolen coat, front pose, light brown hair"));
        ("clip", Out checkpointloadersimple_4 1)] |}.

Definition decl_cliptextencode_7 : node_decl :=
  {| nd_id := cliptextencode_7; nd_self := cliptextencode;
     nd_meth := "encode";
     nd_kwargs :=
       [("text", Lit (VStr "text, watermark"));
        ("clip", Out checkpointloadersimple_4 1)] |}.

Definition decl_loadimage_14 : node_decl :=
  {| nd_id := loadimage_14; nd_self := loadimage;
     nd_meth := "load_image";
     nd_kwargs := [("image", Lit (VStr "disney.png"))] |}.

Definition decl_vaeloader_26 : node_decl :=
  {| nd_id := vaeloader_26; nd_self := vaeloader;
     nd_meth := "load_vae";
     nd_kwargs :=
       [("vae_name", Lit (VStr "vae-ft-mse-840000-ema-pruned.safetensors"))] |}.

Definition decl_vaeencode_15 : node_decl :=
  {| nd_id := vaeencode_15; nd_self := vaeencode;
     nd_meth := "encode";
     nd_kwargs :=
       [("pixels", Out loadimage_14 0);
        ("vae", Out vaeloader_26 0)] |}.

Definition decl_controlnetloader_19 : node_decl :=
  {| nd_id := controlnetloader_19; nd_self := controlnetloader;
     nd_meth := "load_controlnet";
     nd_kwargs :=
       [("control_net_name",
         Lit (VStr "control_v11f1p_sd15_depth_fp16.safetensors"))] |}.

Definition decl_cliptextencode_21 : node_decl :=
  {| nd_id := cliptextencode_21; nd_self := cliptextencode;
     nd_meth := "encode";
     nd_kwargs :=
       [("text", Lit (VStr
           ("a ((disney pixar cartoon)) highly detailed image of a man with grey woolen coat, front pose, light brown hair"
            ++ newline ++
            "vibrant, distinct colors, with a clear, smudge-free background. Emphasize sharp details and smooth textures.")));
        ("clip", Out checkpointloadersimple_4 1)] |}.

Definition decl_cliptextencode_24 : node_decl :=
  {| nd_id := cliptextencode_24; nd_self := cliptextencode;
     nd_meth := "encode";
     nd_kwargs :=
       [("text", Lit (VStr "text, watermark, photo, smudge, "));
        ("clip", Out checkpointloadersimple_4 1)] |}.

Definition decl_controlnetloader_29 : node_decl :=
  {| nd_id := controlnetloader_29; nd_self := controlnetloader;
     nd_meth := "load_controlnet";
     nd_kwargs :=
       [("control_net_name",
         Lit (VStr "control_v11p_sd15_canny_fp16.safetensors"))] |}.

Definition decl_aio_preprocessor_44 : node_decl :=
  {| nd_id := aio_preprocessor_44; nd_self := aio_preprocessor;
     nd_meth := "execute";
     nd_kwargs :=
       [("preprocessor", Lit (VStr "Zoe-DepthMapPreprocessor"));
        ("resolution", Lit (VInt 512));
        ("image", Out loadimage_14 0)] |}.

Definition decl_controlnetapplyadvanced_25 : node_decl :=
  {| nd_id := controlnetapplyadvanced_25; nd_self := controlnetapplyadvanced;
     nd_meth := "apply_controlnet";
     nd_kwargs :=
       [("strength", Lit (VFloat "0.45"));
        ("start_percent", Lit (VInt 0));
        ("end_percent", Lit (VFloat "0.5"));
        ("positive", Out cliptextencode_21 0);
        ("negative", Out cliptextencode_24 0);
        ("control_net", Out controlnetloader_19 0);
        ("image", Out aio_preprocessor_44 0)] |}.

Definition decl_aio_preprocessor_43 : node_decl :=
  {| nd_id := aio_preprocessor_43; nd_self := aio_preprocessor;
     nd_meth := "execute";
     nd_kwargs :=
       [("preprocessor", Lit (VStr "LineArtPreprocessor"));
        ("resolution", Lit (VInt 512));
        ("image", Out loadimage_14 0)] |}.

Definition decl_controlnetapplyadvanced_30 : node_decl :=
  {| nd_id := controlnetapplyadvanced_30; nd_self := controlnetapplyadvanced;
     nd_meth := "apply_controlnet";
     nd_kwargs :=
       [("strength", Lit (VFloat "0.45"));
        ("start_percent", Lit (VInt 0));
        ("end_percent", Lit (VFloat "0.5"));
        ("positive", Out controlnetapplyadvanced_25 0);
        ("negative", Out controlnetapplyadvanced_25 1);
        ("control_net", Out controlnetloader_29 0);
        ("image", Out aio_preprocessor_43 0)] |}.

Definition decl_bnk_unsampler_13 : node_decl :=
  {| nd_id := bnk_unsampler_13; nd_self := bnk_unsampler;
     nd_meth := "unsampler";
     nd_kwargs :=
       [("steps", Lit (VInt 30));
        ("end_at_step", Lit (VInt 0));
        ("cfg", Lit (VInt 1));
        ("sampler_name", Lit (VStr "dpmpp_2m"));
        ("scheduler", Lit (VStr "karras"));
        ("normalize", Lit (VStr "disable"));
        ("model", Out checkpointloadersimple_4 0);
        ("positive", Out cliptextencode_6 0);
        ("negative", Out cliptextencode_7 0);
        ("latent_image", Out vaeencode_15 0)] |}.

Definition decl_ksampleradvanced_16 : node_decl :=
  {| nd_id := ksampleradvanced_16; nd_self := ksampleradvanced;
     nd_meth := "sample";
     nd_kwargs :=
       [("add_noise", Lit (VStr "disable"));
        ("noise_seed", Randint 1 (2 ^ 64));
        ("steps", Lit (VInt 20));
        ("cfg", Lit (VFloat "4.5"));
        ("sampler_name", Lit (VStr "dpmpp_2m"));
        ("scheduler", Lit (VStr "karras"));
        ("start_at_step", Lit (VInt 0));
        ("end_at_step", Lit (VInt 25));
        ("return_with_leftover_noise", Lit (VStr "disable"));
        ("model", Out checkpointloadersimple_4 0);
        ("positive", Out controlnetapplyadvanced_30 0);
        ("negative", Out controlnetapplyadvanced_30 1);
        ("latent_image", Out bnk_unsampler_13 0)] |}.

Definition decl_vaedecode_8 : node_decl :=
  {| nd_id := vaedecode_8; nd_self := vaedecode;
     nd_meth := "decode";
     nd_kwargs :=
       [("samples", Out ksampleradvanced_16 0);
        ("vae", Out vaeloader_26 0)] |}.

Definition decl_midas_depthmappreprocessor_50 : node_decl :=
  {| nd_id := midas_depthmappreprocessor_50;
     nd_self := midas_depthmappreprocessor;
     nd_meth := "execute";
     nd_kwargs :=
       [("a", Lit (VFloat "6.283185307179586"));
        ("bg_threshold", Lit (VFloat "0.1"));
        ("resolution", Lit (VInt 512));
        ("image", Out loadimage_14 0)] |}.

Definition decl_finale : node_decl :=
  {| nd_id := finale; nd_self := saveImg;
     nd_meth := "save_images";
     nd_kwargs :=
       [("images", Sub vaedecode_8 0);
        ("filename_prefix", Lit (VStr "OutPut"))] |}.

Definition main : M W unit :=
  import_custom_nodes ;;
  with_inference_mode (
    new checkpointloadersimple (Imported "CheckpointLoaderSimple") ;;
    node decl_checkpointloadersimple_4 ;;
    new cliptextencode (Imported "CLIPTextEncode") ;;
    node decl_cliptextencode_6 ;;
    node decl_cliptextencode_7 ;;
    new loadimage (Imported "LoadImage") ;;
    node decl_loadimage_14 ;;
    new vaeloader (Imported "VAELoader") ;;
    node decl_vaeloader_26 ;;
    new vaeencode (Imported "VAEEncode") ;;
    node decl_vaeencode_15 ;;
    new controlnetloader (Imported "ControlNetLoader") ;;
    node decl_controlnetloader_19 ;;
    node decl_cliptextencode_21 ;;
    node decl_cliptextencode_24 ;;
    node decl_controlnetloader_29 ;;
    new aio_preprocessor (Registered "AIO_Preprocessor") ;;
    new controlnetapplyadvanced (Imported "ControlNetApplyAdvanced") ;;
    new bnk_unsampler (Registered "BNK_Unsampler") ;;
    new ksampleradvanced (Imported "KSamplerAdvanced") ;;
    new vaedecode (Imported "VAEDecode") ;;
    new previewimg (Imported "PreviewImage") ;;
    new imageupscalewithmodel (Registered "ImageUpscaleWithModel") ;;
    new midas_depthmappreprocessor (Registered "MiDaS-DepthMapPreprocessor") ;;
    for_range q 1 (
      node decl_aio_preprocessor_44 ;;
      node decl_controlnetapplyadvanced_25 ;;
      node decl_aio_preprocessor_43 ;;
      node decl_controlnetapplyadvanced_30 ;;
      node decl_bnk_unsampler_13 ;;
      node decl_ksampleradvanced_16 ;;
      node decl_vaedecode_8 ;;
      node decl_midas_depthmappreprocessor_50 ;;
      new saveImg (Imported "SaveImage") ;;
      node decl_finale ;;
      print (VStr "finale") ;;
      out <- load finale ;;
      print out)).

End WithExternals.

(** ** The declared graph and what is observed of a run *)

(** The node calls of [main], in the order they are written. *)
Definition pipeline : list node_decl :=
  [decl_checkpointloadersimple_4; decl_cliptextencode_6;
   decl_cliptextencode_7; decl_loadimage_14; decl_vaeloader_26;
   decl_vaeencode_15; decl_controlnetloader_19; decl_cliptextencode_21;
   decl_cliptextencode_24; decl_controlnetloader_29;
   decl_aio_preprocessor_44; decl_controlnetapplyadvanced_25;
   decl_aio_preprocessor_43; decl_controlnetapplyadvanced_30;
   decl_bnk_unsampler_13; decl_ksampleradvanced_16; decl_vaedecode_8;
   decl_midas_depthmappreprocessor_50; decl_finale].

Definition arg_refs (a : arg) : list var :=
  match a with
  | Out x _ | Sub x _ => [x]
  | Lit _ | Randint _ _ => []
  end.

(** The nodes whose outputs a node call reads. *)
Definition refs (d : node_decl) : list var :=
  flat_map (fun kw => arg_refs (snd kw)) (nd_kwargs d).

Definition consumes (B A : node_decl) : Prop := In (nd_id A) (refs B).

Definition decl_of (x : var) : option node_decl :=
  find (fun d => var_eqb (nd_id d) x) pipeline.

Definition refs_of (x : var) : list var :=
  match decl_of x with
  | Some d => refs d
  | None => []
  end.

Definition kwargs_of (x : var) : list (string * arg) :=
  match decl_of x with
  | Some d => nd_kwargs d
  | None => []
  end.

(** How many downstream keyword arguments read an output of [x]. *)
Definition fan_out (x : var) : nat :=
  List.length
    (filter (var_eqb x) (flat_map refs pipeline)).

(** Every node call reads only outputs of node calls written before it. *)
Fixpoint declared_before (seen : list var) (ds : list node_decl) : bool :=
  match ds with
  | [] => true
  | d :: rest =>
      forallb (fun x => existsb (var_eqb x) seen) (refs d)
      && declared_before (nd_id d :: seen) rest
  end.

Definition invocations (x : var) (l : list event) : nat :=
  List.length (filter (fun ev => var_eqb (ev_node ev) x) l).

Definition event_of (x : var) (l : list event) : option event :=
  find (fun ev => var_eqb (ev_node ev) x) l.

Fixpoint kwarg (name : string) (kws : list (string * value)) : option value :=
  match kws with
  | [] => None
  | (n, v) :: rest => if String.eqb name n then Some v else kwarg name rest
  end.

(** The [images] argument the save operation was called with. *)
Definition saved_images (l : list event) : option value :=
  match event_of finale l with
  | Some ev => kwarg "images" (ev_kwargs ev)
  | None => None
  end.

(** [x] has been produced before, and the locals hold what was produced. *)
Definition produced (x : var) (pre : list event) (fr : frame_t) : Prop :=
  match event_of x pre with
  | Some evA =>
      match ev_outcome evA with
      | Ok out => frame_get x fr = Some out
      | Raise _ => False
      end
  | None => False
  end.

Fixpoint all_produced (xs : list var) (pre : list event) (fr : frame_t)
  : Prop :=
  match xs with
  | [] => True
  | x :: xs' => produced x pre fr /\ all_produced xs' pre fr
  end.

(** Every invocation in [l] finds its predecessors produced, [pre] being
    what was invoked before [l]. *)
Fixpoint topo_ok (pre l : list event) : Prop :=
  match l with
  | [] => True
  | ev :: rest =>
      all_produced (refs_of (ev_node ev)) pre (ev_frame ev)
      /\ topo_ok (pre ++ [ev]) rest
  end.

(** The arguments written [get_value_at_index(x, i)] hold what index [i]
    of [out] resolves to. *)
Fixpoint reads_from (x : var) (out : value) (kws : list (string * arg))
    (vals : list (string * value)) : Prop :=
  match kws, vals with
  | [], [] => True
  | (n, a) :: kws', (n', v) :: vals' =>
      n = n'
      /\ match a with
         | Out y i =>
             if var_eqb y x then get_value_at_index out i = Ok v else True
         | _ => True
         end
      /\ reads_from x out kws' vals'
  | _, _ => False
  end.

Fixpoint read_only_after (x : var) (out : value) (l : list event) : Prop :=
  match l with
  | [] => True
  | ev :: rest =>
      frame_get x (ev_frame ev) = Some out
      /\ reads_from x out (kwargs_of (ev_node ev)) (ev_kwargs ev)
      /\ read_only_after x out rest
  end.

Fixpoint read_only (x : var) (final : frame_t) (l : list event) : Prop :=
  match l with
  | [] => True
  | ev :: rest =>
      (if var_eqb (ev_node ev) x
       then match ev_outcome ev with
            | Ok out =>
                frame_get x final = Some out /\ read_only_after x out rest
            | Raise _ => True
            end
       else True)
      /\ read_only x final rest
  end.

Fixpoint none_invoked (ys : list var) (l : list event) : Prop :=
  match ys with
  | [] => True
  | y :: ys' => invocations y l = 0%nat /\ none_invoked ys' l
  end.

(** If the invocation of [x] raised, the run ended with that exception,
    none of [later] was invoked and nothing was printed. *)
Definition aborts_at {W} (x : var) (later : list var) (s : state W)
    (r : result unit) : Prop :=
  match event_of x (log s) with
  | Some ev =>
      match ev_outcome ev with
      | Raise e => r = Raise e /\ none_invoked later (log s) /\ stdout s = []
      | Ok _ => True
      end
  | None => True
  end.

(** Every output that was returned is bound in [final]. *)
Fixpoint outputs_kept (final : frame_t) (l : list event) : Prop :=
  match l with
  | [] => True
  | ev :: rest =>
      match ev_outcome ev with
      | Ok out => frame_get (ev_node ev) final = Some out
      | Raise _ => True
      end
      /\ outputs_kept final rest
  end.

(** ** Replacing the MiDaS operation *)

Definition is_midas (self : value) : bool :=
  match self with
  | VObj cls _ => String.eqb cls "MiDaS-DepthMapPreprocessor"
  | _ => false
  end.

(** The same collaborators, except that calls on an instance of the MiDaS
    preprocessor are answered by [g]. *)
Definition with_midas {W} (E : externals W)
    (g : value -> string -> list (string * value) -> W -> W * result value)
  : externals W :=
  {| os_getcwd := os_getcwd E;
     os_listdir := os_listdir E;
     os_isdir := os_isdir E;
     custom_nodes_init := custom_nodes_init E;
     inference_mode_enter := inference_mode_enter E;
     inference_mode_exit := inference_mode_exit E;
     instantiate := instantiate E;
     invoke := fun self meth kwargs w =>
                 if is_midas self then g self meth kwargs w
                 else invoke E self meth kwargs w;
     random_randint := random_randint E |}.

(** ** A concrete world, to run the program on *)

(** A small file system: [/srv/app] holds the directory [ComfyUI], [/tmp]
    holds a plain file of that name, the root holds neither. *)
Definition demo_listdir (path : string) : result (list string) :=
  if String.eqb path "/srv/app/ComfyUI/custom_nodes" then Ok ["pack"]
  else if String.eqb path "/srv/app/ComfyUI"
       then Ok ["custom_nodes"; "models"; "main.py"]
  else if String.eqb path "/srv/app" then Ok ["ComfyUI"; "README.md"]
  else if String.eqb path "/srv" then Ok ["app"]
  else if String.eqb path "/" then Ok ["srv"; "tmp"]
  else if String.eqb path "/tmp" then Ok ["ComfyUI"]
  else Raise (Failure "FileNotFoundError").

(** Node operations that hand out fresh handles: preprocessors answer with
    a keyed envelope, the save operation with its user-interface record,
    the others with a tuple.  [fails] selects the calls that raise. *)
Definition demo_invoke (fails : value -> string -> bool)
    (self : value) (meth : string) (kwargs : list (string * value))
    (w : nat) : nat * result value :=
  if fails self meth then (w, Raise (Failure meth))
  else if String.eqb meth "execute"
       then (S w, Ok (VDict [(KStr "ui", VDict []);
                             (KStr "result", VList [VOpaque w])]))
  else if String.eqb meth "save_images"
       then (S w, Ok (VDict [(KStr "ui", VDict [(KStr "images", VList [])])]))
  else (3 + w, Ok (VList [VOpaque w; VOpaque (1 + w); VOpaque (2 + w)]))%nat.

Definition demo_externals (cwd : string) (fails : value -> string -> bool)
  : externals nat :=
  {| os_getcwd := fun _ => Ok cwd;
     os_listdir := fun _ path => demo_listdir path;
     os_isdir := fun _ path => String.eqb path "/srv/app/ComfyUI";
     custom_nodes_init := fun w => (w, Ok tt);
     inference_mode_enter := fun w => w;
     inference_mode_exit := fun w => w;
     instantiate := fun _ w => (S w, Ok w);
     invoke := demo_invoke fails;
     random_randint := fun lo _ w => (w, lo) |}.

Definition never_fails (self : value) (meth : string) : bool := false.

Definition sampler_fails (self : value) (meth : string) : bool :=
  String.eqb meth "sample".

Definition demo : externals nat :=
  demo_externals "/srv/app/ComfyUI/custom_nodes" never_fails.

(** A complete run on the demo world, and an event to pad [nth] with. *)
Definition demo_run : state nat * result unit :=
  main demo (initial_state 0%nat []).

Definition no_event : event :=
  {| ev_node := q; ev_self := VNone; ev_meth := ""; ev_kwargs := [];
     ev_frame := []; ev_outcome := Raise TypeError |}.

(** The demo world with a sampler that raises. *)
Definition sampler_failure_run : state nat * result unit :=
  main (demo_externals "/" sampler_fails) (initial_state 0%nat []).

(** The same demo world, with a MiDaS operation that answers with another
    value and moves the world further. *)
Definition other_midas (self : value) (meth : string)
    (kwargs : list (string * value)) (w : nat) : nat * result value :=
  ((7 + w)%nat, Ok (VList [VStr "another depth map"; VOpaque w])).

Definition other_midas_run : state nat * result unit :=
  main (with_midas demo other_midas) (initial_state 0%nat []).

(** ** Objects that change in place *)







(** ** Further definitions: the search, the configuration loader, the
    shape of a run *)

(** The directory [n] levels above [path]. *)
Fixpoint ancestor (n : nat) (path : string) : string :=
  match n with
  | O => path
  | S n' => ancestor n' (dirname path)
  end.

(** Where the search of [find_path] starts. *)
Definition search_start {W} (E : externals W) (path : option string) (w : W)
  : result string :=
  match path with
  | Some p => Ok p
  | None => os_getcwd E w
  end.

(** The directory [m] levels above [dir] can be listed, has no entry
    [name], and is not its own parent. *)
Definition passed_over {W} (E : externals W) (w : W) (name dir : string)
    (m : nat) : Prop :=
  (exists entries,
      os_listdir E w (ancestor m dir) = Ok entries /\ ~ In name entries)
  /\ dirname (ancestor m dir) <> ancestor m dir.

(** What a call of [find_path] prints. *)
Definition found_line (name : string) (r : result (option string))
  : list value :=
  match r with
  | Ok (Some p) => [VStr (name ++ " found: " ++ p)]
  | _ => []
  end.

(** What [add_extra_model_paths] calls and this file does not define: the
    import of [load_extra_path_config] from [main], and that function. *)
Record config_loader (W : Type) := {
  import_main : W -> W * result unit;
  load_extra_path_config : string -> W -> W * result unit
}.
Arguments import_main {W}.
Arguments load_extra_path_config {W}.

Definition external_step {W} (f : W -> W * result unit) : M W unit :=
  fun s => let (w, r) := f (world s) in (set_world w s, r).

Definition add_extra_model_paths {W} (E : externals W) (L : config_loader W)
  : M W unit :=
  external_step (import_main L) ;;
  extra_model_paths <- find_path E "extra_model_paths.yaml" None ;;
  match extra_model_paths with
  | Some p => external_step (load_extra_path_config L p)
  | None => print (VStr "Could not find the extra_model_paths config file.")
  end.

(** A loader that counts its calls in the world and remembers nothing
    else. *)
Definition demo_loader : config_loader nat :=
  {| import_main := fun w => (w, Ok tt);
     load_extra_path_config := fun _ w => (S w, Ok tt) |}.

(** The demo file system seen from a directory that cannot be listed. *)
Definition demo_lost : externals nat :=
  demo_externals "/gone" never_fails.

(** A file system in which the configuration file is listed twice above
    the working directory, one level up and three levels up; the world is
    the list of the paths the loader was called with. *)
Definition configured_listdir (path : string) : result (list string) :=
  if String.eqb path "/srv/app/ComfyUI/custom_nodes" then Ok ["pack"]
  else if String.eqb path "/srv/app/ComfyUI"
       then Ok ["custom_nodes"; "extra_model_paths.yaml"; "main.py"]
  else if String.eqb path "/srv/app" then Ok ["ComfyUI"]
  else if String.eqb path "/srv" then Ok ["app"; "extra_model_paths.yaml"]
  else if String.eqb path "/" then Ok ["srv"]
  else Raise (Failure "FileNotFoundError").

Definition configured : externals (list string) :=
  {| os_getcwd := fun _ => Ok "/srv/app/ComfyUI/custom_nodes";
     os_listdir := fun _ path => configured_listdir path;
     os_isdir := fun _ _ => false;
     custom_nodes_init := fun w => (w, Ok tt);
     inference_mode_enter := fun w => w;
     inference_mode_exit := fun w => w;
     instantiate := fun _ w => (w, Ok 0%nat);
     invoke := fun _ _ _ w => (w, Ok VNone);
     random_randint := fun lo _ w => (w, lo) |}.

Definition recording_loader : config_loader (list string) :=
  {| import_main := fun w => (w, Ok tt);
     load_extra_path_config := fun p w => ((w ++ [p])%list, Ok tt) |}.

Definition configured_run : state (list string) * result unit :=
  add_extra_model_paths configured recording_loader (initial_state [] []).

(** The nodes of [main] in the order their calls are written. *)
Definition pipeline_order : list var := map nd_id pipeline.

Fixpoint is_prefix (xs ys : list var) : Prop :=
  match xs, ys with
  | [], _ => True
  | x :: xs', y :: ys' => x = y /\ is_prefix xs' ys'
  | _ :: _, [] => False
  end.

Fixpoint each_at_most_once (xs : list var) (l : list event) : Prop :=
  match xs with
  | [] => True
  | x :: xs' =>
      Nat.leb (invocations x l) 1 = true /\ each_at_most_once xs' l
  end.

(** An invocation that raised is the last one, and its exception is the
    outcome [r] of the run. *)
Fixpoint raise_is_last (l : list event) (r : result unit) : Prop :=
  match l with
  | [] => True
  | ev :: rest =>
      match ev_outcome ev with
      | Ok _ => raise_is_last rest r
      | Raise e => rest = [] /\ r = Raise e
      end
  end.

(** The value [v] is what the argument [a] stands for in the locals [fr]:
    the literal, the resolution of a reference on what the locals hold,
    or the integer that [random.randint] returned for the written bounds. *)
Definition arg_denotes {W} (E : externals W) (fr : frame_t) (a : arg)
    (v : value) : Prop :=
  match a with
  | Lit v0 => v = v0
  | Out x i =>
      match frame_get x fr with
      | Some o => get_value_at_index o i = Ok v
      | None => False
      end
  | Sub x i =>
      match frame_get x fr with
      | Some o => getitem o (KInt i) = Ok v
      | None => False
      end
  | Randint lo hi =>
      exists w, v = VInt (snd (random_randint E lo hi w))
  end.

Fixpoint kwargs_denote {W} (E : externals W) (fr : frame_t)
    (kws : list (string * arg)) (vals : list (string * value)) : Prop :=
  match kws, vals with
  | [], [] => True
  | (n, a) :: kws', (n', v) :: vals' =>
      n = n' /\ arg_denotes E fr a v /\ kwargs_denote E fr kws' vals'
  | _, _ => False
  end.

(** The invocation is the one its node declares: that method, on the
    instance bound to the declared variable, with the declared keyword
    arguments evaluated in the locals of that moment. *)
Definition as_declared {W} (E : externals W) (ev : event) : Prop :=
  match decl_of (ev_node ev) with
  | Some d =>
      ev_meth ev = nd_meth d
      /\ frame_get (nd_self d) (ev_frame ev) = Some (ev_self ev)
      /\ kwargs_denote E (ev_frame ev) (nd_kwargs d) (ev_kwargs ev)
  | None => False
  end.

Fixpoint all_as_declared {W} (E : externals W) (l : list event) : Prop :=
  match l with
  | [] => True
  | ev :: rest => as_declared E ev /\ all_as_declared E rest
  end.

(** The seed of the sampler: [random.randint(1, 2**64)] is called in some
    world, what it returns is the [noise_seed] passed, and the sampler is
    invoked in the world that call left. *)
Definition seed_drawn {W} (E : externals W) (l : list event) : Prop :=
  match event_of ksampleradvanced_16 l with
  | None => True
  | Some ev =>
      exists w,
        kwarg "noise_seed" (ev_kwargs ev)
        = Some (VInt (snd (random_randint E 1 (2 ^ 64) w)))
        /\ ev_outcome ev
           = snd (invoke E (ev_self ev) (ev_meth ev) (ev_kwargs ev)
                    (fst (random_randint E 1 (2 ^ 64) w)))
  end.

Fixpoint frame_included (fr1 fr2 : frame_t) : Prop :=
  match fr1 with
  | [] => True
  | (x, v) :: rest => frame_get x fr2 = Some v /\ frame_included rest fr2
  end.

(** From one invocation to the next, and to the end, bindings are only
    added. *)
Fixpoint frames_grow (fr : frame_t) (l : list event) (final : frame_t)
  : Prop :=
  match l with
  | [] => frame_included fr final
  | ev :: rest =>
      frame_included fr (ev_frame ev) /\ frames_grow (ev_frame ev) rest final
  end.

(** Every binding of [fr1] is a binding of [fr2]. *)
Definition frame_le (fr1 fr2 : frame_t) : Prop :=
  forall x v, frame_get x fr1 = Some v -> frame_get x fr2 = Some v.

(** What a run has printed: the word and the save operation's output when
    it completed, nothing when it raised. *)
Definition printed {W} (s : state W) (r : result unit) : Prop :=
  match r with
  | Ok _ =>
      match event_of finale (log s) with
      | Some ev =>
          match ev_outcome ev with
          | Ok out => stdout s = [VStr "finale"; out]
          | Raise _ => False
          end
      | None => False
      end
  | Raise _ => stdout s = []
  end.

(** If the save operation was invoked, its [images] argument is element 0
    of the decode output by plain subscription. *)
Definition save_subscripts_decode (l : list event) : Prop :=
  match event_of finale l with
  | None => True
  | Some evS =>
      match event_of vaedecode_8 l with
      | None => False
      | Some evD =>
          match ev_outcome evD, kwarg "images" (ev_kwargs evS) with
          | Ok decoded, Some images => getitem decoded (KInt 0) = Ok images
          | _, _ => False
          end
      end
  end.

Definition complete_order (l : list event) (r : result unit) : Prop :=
  match r with
  | Ok _ => map ev_node l = pipeline_order
  | Raise _ => True
  end.

(** The demo world with a decode operation that answers with a keyed
    envelope, as the preprocessors do. *)
Definition envelope_decode (self : value) (meth : string)
    (kwargs : list (string * value)) (w : nat) : nat * result value :=
  if String.eqb meth "decode"
  then (S w, Ok (VDict [(KStr "ui", VDict []);
                        (KStr "result", VList [VOpaque w])]))
  else demo_invoke never_fails self meth kwargs w.

Definition demo_envelope : externals nat :=
  {| os_getcwd := os_getcwd demo;
     os_listdir := os_listdir demo;
     os_isdir := os_isdir demo;
     custom_nodes_init := custom_nodes_init demo;
     inference_mode_enter := inference_mode_enter demo;
     inference_mode_exit := inference_mode_exit demo;
     instantiate := instantiate demo;
     invoke := envelope_decode;
     random_randint := random_randint demo |}.

Definition envelope_run : state nat * result unit :=
  main demo_envelope (initial_state 0%nat []).

(** ** Theorems *)

(** ** Value resolution *)

Lemma seq_index_in_range {A} (xs : list A) (i : Z) :
  0 <= i < Z.of_nat (List.length xs) ->
  exists x, nth_error xs (Z.to_nat i) = Some x /\ seq_index xs i = Ok x.
Proof.
  intros Hi. unfold seq_index.
  destruct (Z.ltb_spec i 0) as [Hneg | _]; [lia |].
  destruct (Z.leb_spec 0 i) as [_ | Hlt]; [| lia].
  destruct (Z.ltb_spec i (Z.of_nat (List.length xs))) as [_ | Hge]; [| lia].
  simpl. destruct (nth_error xs (Z.to_nat i)) as [x |] eqn:Hn.
  - exists x. split; reflexivity.
  - apply nth_error_None in Hn. lia.
Qed.

Lemma seq_index_past_end {A} (xs : list A) (i : Z) :
  Z.of_nat (List.length xs) <= i -> seq_index xs i = Raise IndexError.
Proof.
  intros Hi. unfold seq_index.
  destruct (Z.ltb_spec i 0) as [Hneg | _]; [lia |].
  destruct (Z.ltb_spec i (Z.of_nat (List.length xs))) as [Hlt | _]; [lia |].
  rewrite andb_false_r. reflexivity.
Qed.

Lemma seq_index_never_KeyError {A} (xs : list A) (i : Z) (k : key) :
  seq_index xs i <> Raise (KeyError k).
Proof.
  unfold seq_index.
  destruct ((0 <=? _) && _); [destruct (nth_error _ _) |]; discriminate.
Qed.

(** Only a mapping that lacks the key makes [obj[k]] raise [KeyError]. *)
Lemma getitem_KeyError (obj : value) (k k' : key) :
  getitem obj k = Raise (KeyError k') ->
  exists items, obj = VDict items /\ dict_get k items = None /\ k' = k.
Proof.
  destruct obj as [| | | s | xs | items | |]; destruct k as [i | s'];
    simpl; try discriminate.
  - destruct (seq_index (list_ascii_of_string s) i) as [c | e] eqn:He;
      [discriminate |].
    intros H. injection H as ->. exfalso. eapply seq_index_never_KeyError, He.
  - intros H. exfalso. eapply seq_index_never_KeyError, H.
  - destruct (dict_get (KInt i) items) eqn:Hd; [discriminate |].
    intros H. injection H as <-. eauto.
  - destruct (dict_get (KStr s') items) eqn:Hd; [discriminate |].
    intros H. injection H as <-. eauto.
Qed.

(** C1: on the list ["a","b"] index 1 resolves to "b"; on the mapping
    {"result": ["a","b"]} index 1 resolves to "b" through the fallback key
    (direct indexing raises KeyError there); on the mapping {"x": 1} index 0
    raises a KeyError, which is a LookupError, and no value is returned. *)
Theorem resolve_concrete_shapes :
  get_value_at_index (VList [VStr "a"; VStr "b"]) 1 = Ok (VStr "b")
  /\ (getitem (VDict [(KStr "result", VList [VStr "a"; VStr "b"])]) (KInt 1)
        = Raise (KeyError (KInt 1))
      /\ get_value_at_index
           (VDict [(KStr "result", VList [VStr "a"; VStr "b"])]) 1
         = Ok (VStr "b"))
  /\ (get_value_at_index (VDict [(KStr "x", VInt 1)]) 0
        = Raise (KeyError (KStr "result"))
      /\ is_LookupError (KeyError (KStr "result")) = true
      /\ forall v, get_value_at_index (VDict [(KStr "x", VInt 1)]) 0 <> Ok v).
Proof.
  repeat split; try reflexivity.
  intros v; discriminate.
Qed.

(** C2, counterexample: on the one-element list ["a"] and index 1 (length
    at most the index) positional indexing raises IndexError, the code lets
    it propagate, and the fallback key is never read: reading it from a
    list would have raised TypeError instead. *)
Lemma fallback_not_taken_on_short_sequence :
  get_value_at_index (VList [VStr "a"]) 1 = Raise IndexError
  /\ fallback_lookup (VList [VStr "a"]) 1 = Raise TypeError
  /\ resolve_as_specified (VList [VStr "a"]) 1
       <> get_value_at_index (VList [VStr "a"]) 1
  /\ ~ fallback_on_any_failure (VList [VStr "a"]) 1.
Proof.
  repeat split; try reflexivity; try discriminate.
  intros H. specialize (H eq_refl ltac:(lia) IndexError eq_refl).
  discriminate H.
Qed.

(** C2, amended: positional indexing comes first and its value is returned
    when it succeeds (for a sequence, whenever the index is within its
    length); the fallback key "result" is read, and indexed with the same
    integer, exactly when the container is a mapping without the key [i]
    (positional indexing raised KeyError); every other failure, in
    particular the IndexError of a sequence whose length is at most [i],
    propagates unchanged. *)
Theorem fallback_only_on_KeyError (obj : value) (i : Z) :
  (forall v, getitem obj (KInt i) = Ok v -> get_value_at_index obj i = Ok v)
  /\ (forall xs, obj = VList xs -> 0 <= i < Z.of_nat (List.length xs) ->
        exists v, nth_error xs (Z.to_nat i) = Some v
                  /\ get_value_at_index obj i = Ok v)
  /\ (forall items, obj = VDict items -> dict_get (KInt i) items = None ->
        get_value_at_index obj i = fallback_lookup obj i)
  /\ (forall xs, obj = VList xs -> Z.of_nat (List.length xs) <= i ->
        get_value_at_index obj i = Raise IndexError)
  /\ (forall e, getitem obj (KInt i) = Raise e ->
        (forall k, e <> KeyError k) ->
        get_value_at_index obj i = Raise e)
  /\ (get_value_at_index obj i <> getitem obj (KInt i) ->
        exists items, obj = VDict items /\ dict_get (KInt i) items = None).
Proof.
  unfold get_value_at_index, fallback_lookup.
  split; [| split; [| split; [| split; [| split]]]].
  - intros v ->. reflexivity.
  - intros xs -> Hi. simpl.
    destruct (seq_index_in_range xs i Hi) as (v & Hn & ->). eauto.
  - intros items -> Hd. simpl. rewrite Hd. reflexivity.
  - intros xs -> Hlen. simpl. rewrite seq_index_past_end by exact Hlen.
    reflexivity.
  - intros e -> Hne. destruct e; try reflexivity. destruct (Hne k eq_refl).
  - intros Hdiff.
    destruct (getitem obj (KInt i)) as [v | e] eqn:Hg; [congruence |].
    destruct e as [k | | | |]; try congruence.
    apply getitem_KeyError in Hg as (items & -> & Hd & _). eauto.
Qed.

(** The amended statement at a mapping without the key, where the fallback
    is taken, and at a short list, where it is not. *)
Lemma fallback_only_on_KeyError_witness :
  get_value_at_index (VDict [(KStr "result", VList [VStr "a"; VStr "b"])]) 1
    = fallback_lookup (VDict [(KStr "result", VList [VStr "a"; VStr "b"])]) 1
  /\ get_value_at_index (VList [VStr "a"]) 1 = Raise IndexError.
Proof.
  split.
  - apply (proj1 (proj2 (proj2 (fallback_only_on_KeyError
              (VDict [(KStr "result", VList [VStr "a"; VStr "b"])]) 1)))
             [(KStr "result", VList [VStr "a"; VStr "b"])]);
      reflexivity.
  - apply (proj1 (proj2 (proj2 (proj2 (fallback_only_on_KeyError
              (VList [VStr "a"]) 1)))) [VStr "a"]);
      [reflexivity | simpl; lia].
Defined.

(** ** Paths *)

Example dirname_examples :
  map dirname ["/srv/app/ComfyUI"; "/srv"; "/"; "//"; "a/b/"; "name"; ""]
  = ["/srv/app"; "/"; "/"; "//"; "a/b"; ""; ""].
Proof. reflexivity. Qed.

Example join_examples :
  (join "/srv/app" "ComfyUI", join "/" "ComfyUI", join "" "ComfyUI")
  = ("/srv/app/ComfyUI", "/ComfyUI", "ComfyUI").
Proof. reflexivity. Qed.

(** ** Bootstrap *)

(** Looking for a path prints at most one line and changes nothing else. *)
Lemma find_path_from_frame {W} (E : externals W) (name path : string)
    (s : state W) :
  let s' := fst (find_path_from E name path s) in
  world s' = world s /\ sys_path s' = sys_path s
  /\ frame s' = frame s /\ log s' = log s.
Proof.
  funelim (find_path_from E name path s); simpl; auto.
Qed.

Lemma find_path_frame {W} (E : externals W) (name : string)
    (path : option string) (s : state W) :
  let s' := fst (find_path E name path s) in
  world s' = world s /\ sys_path s' = sys_path s.
Proof.
  destruct path as [p |]; simpl.
  - pose proof (find_path_from_frame E name p s) as H. simpl in H. tauto.
  - destruct (os_getcwd E (world s)) as [cwd | e]; simpl; [| auto].
    pose proof (find_path_from_frame E name cwd s) as H. simpl in H. tauto.
Qed.

(** C9: [add_comfyui_directory_to_sys_path] leaves [sys.path] as it was
    when [find_path("ComfyUI")] returns None or a path that is not a
    directory (and when the search raises); when it returns a directory,
    [sys.path] afterwards is the old list followed by that one path. *)
Theorem bootstrap_extends_sys_path {W} (E : externals W) (s s' : state W)
    (r : result unit) :
  add_comfyui_directory_to_sys_path E s = (s', r) ->
  match snd (find_path E "ComfyUI" None s) with
  | Ok (Some p) =>
      if os_isdir E (world s) p
      then sys_path s' = (sys_path s ++ [p])%list
      else sys_path s' = sys_path s
  | Ok None => sys_path s' = sys_path s
  | Raise _ => sys_path s' = sys_path s
  end.
Proof.
  unfold add_comfyui_directory_to_sys_path, bind.
  pose proof (find_path_frame E "ComfyUI" None s) as [Hw Hp].
  destruct (find_path E "ComfyUI" None s) as [s0 [[p |] | e]];
    simpl in *.
  - rewrite Hw.
    destruct (os_isdir E (world s) p); intros H; injection H as <- <-;
      simpl; congruence.
  - intros H; injection H as <- <-. exact Hp.
  - intros H; injection H as <- <-. exact Hp.
Qed.

(** On the demo file system: started two levels below [/srv/app], the
    directory is found and appended; started in [/tmp], the name is found
    but is not a directory; started at the root, it is not found.  In the
    last two cases nothing changes. *)
Lemma bootstrap_extends_sys_path_witness :
  sys_path (fst (add_comfyui_directory_to_sys_path demo
                   (initial_state 0%nat ["/usr/lib/python3"])))
    = (["/usr/lib/python3"] ++ ["/srv/app/ComfyUI"])%list
  /\ sys_path (fst (add_comfyui_directory_to_sys_path
                      (demo_externals "/tmp" never_fails)
                      (initial_state 0%nat ["/usr/lib/python3"])))
     = ["/usr/lib/python3"]
  /\ sys_path (fst (add_comfyui_directory_to_sys_path
                      (demo_externals "/" never_fails)
                      (initial_state 0%nat ["/usr/lib/python3"])))
     = ["/usr/lib/python3"].
Proof.
  split; [| split].
  - exact (bootstrap_extends_sys_path demo
             (initial_state 0%nat ["/usr/lib/python3"])
             (fst (add_comfyui_directory_to_sys_path demo
                     (initial_state 0%nat ["/usr/lib/python3"])))
             (snd (add_comfyui_directory_to_sys_path demo
                     (initial_state 0%nat ["/usr/lib/python3"])))
             eq_refl).
  - exact (bootstrap_extends_sys_path (demo_externals "/tmp" never_fails)
             (initial_state 0%nat ["/usr/lib/python3"])
             (fst (add_comfyui_directory_to_sys_path
                     (demo_externals "/tmp" never_fails)
                     (initial_state 0%nat ["/usr/lib/python3"])))
             (snd (add_comfyui_directory_to_sys_path
                     (demo_externals "/tmp" never_fails)
                     (initial_state 0%nat ["/usr/lib/python3"])))
             eq_refl).
  - exact (bootstrap_extends_sys_path (demo_externals "/" never_fails)
             (initial_state 0%nat ["/usr/lib/python3"])
             (fst (add_comfyui_directory_to_sys_path
                     (demo_externals "/" never_fails)
                     (initial_state 0%nat ["/usr/lib/python3"])))
             (snd (add_comfyui_directory_to_sys_path
                     (demo_externals "/" never_fails)
                     (initial_state 0%nat ["/usr/lib/python3"])))
             eq_refl).
Defined.

(** ** Running [main] symbolically *)

Lemma bind_assoc {W A B C} (m : M W A) (f : A -> M W B) (k : B -> M W C)
    (s : state W) :
  bind (bind m f) k s = bind m (fun a => bind (f a) k) s.
Proof. unfold bind. destruct (m s) as [s' [a | e]]; reflexivity. Qed.

Lemma for_range_once {W} (x : var) (body : M W unit) (s : state W) :
  for_range x 1 body s
  = bind (store x (VInt 0)) (fun _ => bind body (fun _ => ret tt)) s.
Proof. reflexivity. Qed.

Lemma invoke_with_midas {W} (E : externals W) g self meth kwargs w :
  invoke (with_midas E g) self meth kwargs w
  = if is_midas self then g self meth kwargs w
    else invoke E self meth kwargs w.
Proof. reflexivity. Qed.

Lemma instantiate_with_midas {W} (E : externals W) g c w :
  instantiate (with_midas E g) c w = instantiate E c w.
Proof. reflexivity. Qed.

Lemma random_randint_with_midas {W} (E : externals W) g lo hi w :
  random_randint (with_midas E g) lo hi w = random_randint E lo hi w.
Proof. reflexivity. Qed.

Lemma custom_nodes_init_with_midas {W} (E : externals W) g w :
  custom_nodes_init (with_midas E g) w = custom_nodes_init E w.
Proof. reflexivity. Qed.

Lemma inference_mode_enter_with_midas {W} (E : externals W) g w :
  inference_mode_enter (with_midas E g) w = inference_mode_enter E w.
Proof. reflexivity. Qed.

(** Reduce the program text and the bookkeeping, leave the external
    operations and the resolution of values as they are. *)
Ltac run_cbv H :=
  cbv beta iota zeta delta
    [bind ret raise lift load store node new import_custom_nodes
     call_method print eval_kwargs eval_arg set_world set_frame record_event
     world sys_path stdout frame log initial_state
     frame_get frame_set var_eqb var_tag Pos.eqb class_name
     nd_id nd_self nd_meth nd_kwargs
     decl_checkpointloadersimple_4 decl_cliptextencode_6
     decl_cliptextencode_7 decl_loadimage_14 decl_vaeloader_26
     decl_vaeencode_15 decl_controlnetloader_19 decl_cliptextencode_21
     decl_cliptextencode_24 decl_controlnetloader_29
     decl_aio_preprocessor_44 decl_controlnetapplyadvanced_25
     decl_aio_preprocessor_43 decl_controlnetapplyadvanced_30
     decl_bnk_unsampler_13 decl_ksampleradvanced_16 decl_vaedecode_8
     decl_midas_depthmappreprocessor_50 decl_finale] in H.

Ltac norm H :=
  run_cbv H;
  repeat (progress
            rewrite ?invoke_with_midas, ?instantiate_with_midas,
                    ?random_randint_with_midas, ?custom_nodes_init_with_midas,
                    ?inference_mode_enter_with_midas in H;
          cbv beta iota delta [is_midas String.eqb Ascii.eqb Bool.eqb] in H;
          run_cbv H).

(** Case analysis on an external call, unless its answer is known. *)
Ltac split_on H t :=
  match goal with
  | Hk : t = _ |- _ => rewrite Hk in H
  | _ => let Hc := fresh "Hext" in destruct t as [? [? | ?]] eqn:Hc
  end.

Ltac split_res H t :=
  match goal with
  | Hk : t = _ |- _ => rewrite Hk in H
  | _ => let Hc := fresh "Hres" in destruct t as [? | ?] eqn:Hc
  end.

Ltac split_pair H t :=
  match goal with
  | Hk : t = _ |- _ => rewrite Hk in H
  | _ => let Hc := fresh "Hrand" in destruct t as [? ?] eqn:Hc
  end.

Ltac split_stuck H :=
  match type of H with
  | context [custom_nodes_init ?E ?a] => split_on H (custom_nodes_init E a)
  | context [invoke ?E ?a ?b ?c ?d] => split_on H (invoke E a b c d)
  | context [instantiate ?E ?a ?b] => split_on H (instantiate E a b)
  | context [random_randint ?E ?a ?b ?c] =>
      split_pair H (random_randint E a b c)
  | context [get_value_at_index ?a ?b] =>
      split_res H (get_value_at_index a b)
  | context [getitem ?a ?b] => split_res H (getitem a b)
  end.

Ltac crunch H :=
  run_cbv H; repeat (split_stuck H; run_cbv H).

(** The same over [with_midas E g]. *)
Ltac crunch_midas g H :=
  norm H;
  repeat (first
            [ split_stuck H
            | match type of H with
              | context [g ?a ?b ?c ?d] => split_on H (g a b c d)
              end ];
          norm H).

(** While a statement runs, the log so far is kept behind a name. *)
Ltac fold_log H :=
  try match type of H with
      | context [@Build_state _ _ _ _ _ ?L] =>
          tryif is_var L then fail
          else (let lg := fresh "lg" in set (lg := L) in H)
      end.

Ltac unfold_logs :=
  repeat match goal with lg := _ : list event |- _ => subst lg end.

(** One statement of a sequence, [cr] doing the case analysis. *)
Ltac step cr H :=
  fold_log H;
  repeat rewrite bind_assoc in H;
  lazymatch type of H with
  | bind ?m ?k ?s = ?rhs =>
      let p := fresh "p" in
      let Hm := fresh "Hm" in
      change (match m s with
              | (s', Ok a) => k a s'
              | (s', Raise e) => (s', Raise e)
              end = rhs) in H;
      remember (m s) as p eqn:Hm in H;
      cr Hm; subst p; cbv beta iota in H
  end.

Ltac steps cr H on_fail :=
  repeat (step cr H; [ | on_fail H ..]).

(** All of [main]: [on_fail] closes the branches in which a statement
    raised; the branch left is the complete run, with [Hb] holding the
    final state. *)
Ltac run_main_with cr H Hb on_fail :=
  unfold main in H;
  step cr H; [ | on_fail H ..];
  unfold with_inference_mode in H;
  match type of H with
  | (match ?bs with _ => _ end) = _ =>
      let s' := fresh "s" in
      let r' := fresh "r" in
      destruct bs as [s' r'] eqn:Hb
  end;
  injection H; clear H; intros; subst;
  steps cr Hb on_fail;
  rewrite for_range_once in Hb;
  steps cr Hb on_fail;
  run_cbv Hb.

Ltac run_main H Hb on_fail := run_main_with crunch H Hb on_fail.

Lemma var_eqb_eq (x y : var) : var_eqb x y = true -> x = y.
Proof. destruct x, y; (reflexivity || discriminate). Qed.

Lemma var_eqb_refl (x : var) : var_eqb x x = true.
Proof. destruct x; reflexivity. Qed.

Lemma event_of_Some (x : var) (l : list event) (ev : event) :
  event_of x l = Some ev -> In ev l /\ ev_node ev = x.
Proof.
  unfold event_of. intros H. apply find_some in H as [Hin Hx].
  split; [exact Hin | apply var_eqb_eq, Hx].
Qed.

Lemma refs_of_pipeline (d : node_decl) :
  In d pipeline -> refs_of (nd_id d) = refs d.
Proof.
  intros Hd. simpl in Hd.
  repeat (destruct Hd as [<- | Hd]; [reflexivity |]). destruct Hd.
Qed.

(** The declared graph has no cycle: it is written in a topological
    order. *)
Lemma pipeline_declared_in_order : declared_before [] pipeline = true.
Proof. reflexivity. Qed.

(** ** Each node once *)

(** C3: in a complete run the operations invoked are exactly those of the
    declared pipeline, in that order, so every node's operation is invoked
    exactly once; this holds for the checkpoint loader too, whose outputs
    six downstream arguments read. *)
Theorem each_node_invoked_once {W} (E : externals W) (w : W)
    (sp : list string) (s1 : state W) :
  main E (initial_state w sp) = (s1, Ok tt) ->
  map (fun ev => (ev_node ev, ev_meth ev)) (log s1)
    = map (fun d => (nd_id d, nd_meth d)) pipeline
  /\ (forall d, In d pipeline -> invocations (nd_id d) (log s1) = 1%nat)
  /\ (fan_out checkpointloadersimple_4 = 6%nat
      /\ invocations checkpointloadersimple_4 (log s1) = 1%nat)
  /\ (fan_out controlnetapplyadvanced_25 = 2%nat
      /\ invocations controlnetapplyadvanced_25 (log s1) = 1%nat).
Proof.
  intros H.
  run_main H Hb ltac:(fun H' => discriminate H').
  injection Hb as <-. unfold_logs.
  split; [reflexivity |].
  split; [| split; split; reflexivity].
  intros d Hd. simpl in Hd.
  repeat (destruct Hd as [<- | Hd]; [reflexivity |]). destruct Hd.
Qed.

Lemma each_node_invoked_once_witness :
  map (fun ev => (ev_node ev, ev_meth ev))
      (log (fst (main demo (initial_state 0%nat []))))
    = map (fun d => (nd_id d, nd_meth d)) pipeline
  /\ (forall d, In d pipeline ->
        invocations (nd_id d) (log (fst (main demo (initial_state 0%nat []))))
        = 1%nat)
  /\ (fan_out checkpointloadersimple_4 = 6%nat
      /\ invocations checkpointloadersimple_4
           (log (fst (main demo (initial_state 0%nat [])))) = 1%nat)
  /\ (fan_out controlnetapplyadvanced_25 = 2%nat
      /\ invocations controlnetapplyadvanced_25
           (log (fst (main demo (initial_state 0%nat [])))) = 1%nat).
Proof.
  apply (each_node_invoked_once demo 0%nat []).
  vm_compute. reflexivity.
Defined.

(** ** The terminal sink *)

(** C6: in a complete run the save operation is invoked exactly once, and
    its [images] argument is element 0 of what the decode operation
    returned, read by plain subscription [vaedecode_8[0]]. *)
Theorem save_receives_decoded_images {W} (E : externals W) (w : W)
    (sp : list string) (s1 : state W) :
  main E (initial_state w sp) = (s1, Ok tt) ->
  invocations finale (log s1) = 1%nat
  /\ exists evD decoded evS images,
       event_of vaedecode_8 (log s1) = Some evD
       /\ ev_meth evD = "decode"
       /\ ev_outcome evD = Ok decoded
       /\ getitem decoded (KInt 0) = Ok images
       /\ event_of finale (log s1) = Some evS
       /\ ev_meth evS = "save_images"
       /\ ev_kwargs evS
          = [("images", images); ("filename_prefix", VStr "OutPut")]
       /\ saved_images (log s1) = Some images.
Proof.
  intros H.
  run_main H Hb ltac:(fun H' => discriminate H').
  injection Hb as <-. unfold_logs.
  split; [reflexivity |].
  match goal with
  | Hsub : getitem ?d (KInt 0) = Ok ?i |- _ =>
      eexists; exists d; eexists; exists i
  end.
  cbv [event_of find log set_world app ev_node var_eqb var_tag Pos.eqb].
  repeat (split; [first [reflexivity | eassumption] |]).
  reflexivity.
Qed.

Lemma save_receives_decoded_images_witness :
  invocations finale (log (fst (main demo (initial_state 0%nat [])))) = 1%nat
  /\ exists evD decoded evS images,
       event_of vaedecode_8 (log (fst (main demo (initial_state 0%nat []))))
         = Some evD
       /\ ev_meth evD = "decode"
       /\ ev_outcome evD = Ok decoded
       /\ getitem decoded (KInt 0) = Ok images
       /\ event_of finale (log (fst (main demo (initial_state 0%nat []))))
          = Some evS
       /\ ev_meth evS = "save_images"
       /\ ev_kwargs evS
          = [("images", images); ("filename_prefix", VStr "OutPut")]
       /\ saved_images (log (fst (main demo (initial_state 0%nat []))))
          = Some images.
Proof.
  apply (save_receives_decoded_images demo 0%nat []).
  vm_compute. reflexivity.
Defined.

(** ** What holds of every run *)

Lemma all_produced_In (xs : list var) (pre : list event) (fr : frame_t)
    (x : var) :
  all_produced xs pre fr -> In x xs -> produced x pre fr.
Proof.
  induction xs as [| y ys IH]; simpl; [tauto |].
  intros [Hy Hys] [-> | Hin]; auto.
Qed.

Lemma produced_inv (x : var) (pre : list event) (fr : frame_t) :
  produced x pre fr ->
  exists evA out,
    In evA pre /\ ev_node evA = x /\ ev_outcome evA = Ok out
    /\ frame_get x fr = Some out.
Proof.
  unfold produced.
  destruct (event_of x pre) as [evA |] eqn:Hev; [| tauto].
  destruct (ev_outcome evA) as [out | e] eqn:Hout; [| tauto].
  intros Hfr. apply event_of_Some in Hev as [Hin Hx].
  exists evA, out. auto.
Qed.

Lemma topo_ok_at (l : list event) :
  forall pre0, topo_ok pre0 l ->
  forall pre ev post, l = (pre ++ ev :: post)%list ->
    all_produced (refs_of (ev_node ev)) (pre0 ++ pre)%list (ev_frame ev).
Proof.
  induction l as [| ev0 rest IH]; intros pre0 Hok pre ev post Heq.
  - destruct pre; discriminate Heq.
  - destruct Hok as [Hhere Hrest].
    destruct pre as [| ev1 pre']; simpl in Heq; injection Heq as -> ->.
    + rewrite app_nil_r. exact Hhere.
    + specialize (IH _ Hrest pre' ev post eq_refl).
      rewrite <- app_assoc in IH. exact IH.
Qed.




Lemma outputs_kept_In (final : frame_t) (l : list event) (ev : event)
    (out : value) :
  outputs_kept final l -> In ev l -> ev_outcome ev = Ok out ->
  frame_get (ev_node ev) final = Some out.
Proof.
  induction l as [| ev0 rest IH]; simpl; [tauto |].
  intros [Hhere Hrest] [<- | Hin] Hout; [| auto].
  rewrite Hout in Hhere. exact Hhere.
Qed.

Lemma not_invoked_no_event (x : var) (l : list event) :
  invocations x l = 0%nat -> event_of x l = None.
Proof.
  unfold invocations, event_of.
  induction l as [| ev rest IH]; simpl; [reflexivity |].
  destruct (var_eqb (ev_node ev) x); simpl; [discriminate | exact IH].
Qed.

(** The facts that hold of every run of [main], whatever its outcome:
    every invocation found the outputs it reads produced and bound; the
    outputs of the two loaders were never rebound and are what their
    readers received; every returned output is still bound at the end; and
    an exception of the sampler or of the MiDaS operation ended the run
    before the operations written after it. *)
Lemma main_run_facts {W} (E : externals W) (w : W) (sp : list string)
    (s1 : state W) (r : result unit) :
  main E (initial_state w sp) = (s1, r) ->
  topo_ok [] (log s1)
  /\ read_only checkpointloadersimple_4 (frame s1) (log s1)
  /\ read_only vaeloader_26 (frame s1) (log s1)
  /\ outputs_kept (frame s1) (log s1)
  /\ aborts_at ksampleradvanced_16 [vaedecode_8; finale] s1 r
  /\ aborts_at midas_depthmappreprocessor_50 [finale] s1 r.
Proof.
  intros H.
  run_main H Hb
    ltac:(fun H' =>
            solve [injection H' as <- <-; unfold_logs;
                   cbv -[get_value_at_index];
                   repeat split; first [reflexivity | assumption]]).
  injection Hb as <- <-; unfold_logs; cbv -[get_value_at_index];
    repeat split; first [reflexivity | assumption].
Qed.

(** ** Order of evaluation *)

(** C4: in any run, complete or not, when the operation of a node B is
    invoked, every node A whose output B reads has been invoked earlier,
    has returned, and its output is bound in the locals at that moment. *)
Theorem predecessors_evaluated_first {W} (E : externals W) (w : W)
    (sp : list string) (s1 : state W) (r : result unit)
    (A B : node_decl) (pre post : list event) (evB : event) :
  main E (initial_state w sp) = (s1, r) ->
  In A pipeline -> In B pipeline -> consumes B A ->
  log s1 = (pre ++ evB :: post)%list -> ev_node evB = nd_id B ->
  exists evA out,
    In evA pre /\ ev_node evA = nd_id A /\ ev_outcome evA = Ok out
    /\ frame_get (nd_id A) (ev_frame evB) = Some out.
Proof.
  intros Hrun _ HB Hcons Hlog HevB.
  apply main_run_facts in Hrun as (Htopo & _).
  pose proof (topo_ok_at _ _ Htopo _ _ _ Hlog) as Hall. simpl in Hall.
  rewrite HevB, (refs_of_pipeline B HB) in Hall.
  apply produced_inv. eapply all_produced_In; [exact Hall | exact Hcons].
Qed.

(** The decode node reads the sampler's output: the sampler's invocation
    is among the sixteen before it. *)
Lemma predecessors_evaluated_first_witness :
  exists evA out,
    In evA (firstn 16 (log (fst demo_run)))
    /\ ev_node evA = ksampleradvanced_16
    /\ ev_outcome evA = Ok out
    /\ frame_get ksampleradvanced_16
         (ev_frame (nth 16 (log (fst demo_run)) no_event)) = Some out.
Proof.
  apply (predecessors_evaluated_first demo 0%nat [] (fst demo_run)
           (snd demo_run) decl_ksampleradvanced_16 decl_vaedecode_8
           (firstn 16 (log (fst demo_run))) (skipn 17 (log (fst demo_run)))
           (nth 16 (log (fst demo_run)) no_event)).
  - vm_compute. reflexivity.
  - simpl. tauto.
  - simpl. tauto.
  - unfold consumes. simpl. tauto.
  - vm_compute. reflexivity.
  - vm_compute. reflexivity.
Defined.

(** ** Shared outputs *)




(** ** Failure *)

(** C5: if the invocation of the advanced sampler raises, the run ends
    with that very exception; the decode and the save operation are not
    invoked, nothing is saved or printed; and the outputs of the nodes
    evaluated before are still bound in the locals. *)
Theorem sampler_failure_aborts_run {W} (E : externals W) (w : W)
    (sp : list string) (s1 : state W) (r : result unit) (ev : event)
    (e : exn) :
  main E (initial_state w sp) = (s1, r) ->
  event_of ksampleradvanced_16 (log s1) = Some ev ->
  ev_outcome ev = Raise e ->
  r = Raise e
  /\ invocations vaedecode_8 (log s1) = 0%nat
  /\ invocations finale (log s1) = 0%nat
  /\ saved_images (log s1) = None
  /\ stdout s1 = []
  /\ forall ev' out,
       In ev' (log s1) -> ev_outcome ev' = Ok out ->
       frame_get (ev_node ev') (frame s1) = Some out.
Proof.
  intros Hrun Hev Hout.
  apply main_run_facts in Hrun as (_ & _ & _ & Hkept & Habort & _).
  unfold aborts_at in Habort. rewrite Hev, Hout in Habort.
  destruct Habort as (Hr & (Hdecode & Hsave & _) & Hprinted).
  repeat (split; [assumption |]).
  split; [unfold saved_images;
          rewrite (not_invoked_no_event _ _ Hsave); reflexivity |].
  split; [assumption |].
  intros ev' out. apply outputs_kept_In. exact Hkept.
Qed.

Lemma sampler_failure_aborts_run_witness :
  snd sampler_failure_run = Raise (Failure "sample")
  /\ invocations vaedecode_8 (log (fst sampler_failure_run)) = 0%nat
  /\ invocations finale (log (fst sampler_failure_run)) = 0%nat
  /\ saved_images (log (fst sampler_failure_run)) = None
  /\ stdout (fst sampler_failure_run) = []
  /\ forall ev' out,
       In ev' (log (fst sampler_failure_run)) -> ev_outcome ev' = Ok out ->
       frame_get (ev_node ev') (frame (fst sampler_failure_run)) = Some out.
Proof.
  apply (sampler_failure_aborts_run (demo_externals "/" sampler_fails)
           0%nat [] (fst sampler_failure_run) (snd sampler_failure_run)
           (nth 15 (log (fst sampler_failure_run)) no_event)
           (Failure "sample")).
  - vm_compute. reflexivity.
  - vm_compute. reflexivity.
  - vm_compute. reflexivity.
Defined.

(** ** The MiDaS node *)

(** The MiDaS operation is invoked before the save operation: when it
    raises, the run ends with its exception and nothing is saved. *)
Lemma midas_failure_prevents_save {W} (E : externals W) (w : W)
    (sp : list string) (s1 : state W) (r : result unit) (ev : event)
    (e : exn) :
  main E (initial_state w sp) = (s1, r) ->
  event_of midas_depthmappreprocessor_50 (log s1) = Some ev ->
  ev_outcome ev = Raise e ->
  r = Raise e
  /\ invocations finale (log s1) = 0%nat
  /\ saved_images (log s1) = None.
Proof.
  intros Hrun Hev Hout.
  apply main_run_facts in Hrun as (_ & _ & _ & _ & _ & Habort).
  unfold aborts_at in Habort. rewrite Hev, Hout in Habort.
  destruct Habort as (Hr & (Hsave & _) & _).
  repeat (split; [assumption |]).
  unfold saved_images. rewrite (not_invoked_no_event _ _ Hsave). reflexivity.
Qed.

Lemma midas_not_consumed (d : node_decl) :
  In d pipeline -> ~ In midas_depthmappreprocessor_50 (refs d).
Proof.
  intros Hd. simpl in Hd.
  repeat (destruct Hd as [<- | Hd];
          [simpl; intuition discriminate |]).
  destruct Hd.
Qed.

(** C10: take two complete runs that differ only in how calls on the MiDaS
    preprocessor are answered.  The [images] argument handed to the save
    operation is the same in both; no node of the pipeline reads the MiDaS
    output; the MiDaS invocation comes right before the save invocation,
    and when it raises nothing is saved. *)
Theorem midas_output_does_not_reach_save {W} (E : externals W)
    (g : value -> string -> list (string * value) -> W -> W * result value)
    (w : W) (sp : list string) (s1 s2 : state W) :
  main E (initial_state w sp) = (s1, Ok tt) ->
  main (with_midas E g) (initial_state w sp) = (s2, Ok tt) ->
  saved_images (log s1) = saved_images (log s2)
  /\ (exists images, saved_images (log s1) = Some images)
  /\ (forall d, In d pipeline ->
        ~ In midas_depthmappreprocessor_50 (refs d))
  /\ map ev_node (skipn 17 (log s1))
     = [midas_depthmappreprocessor_50; finale]
  /\ map ev_node (skipn 17 (log s2))
     = [midas_depthmappreprocessor_50; finale]
  /\ (forall s r ev e,
        main E (initial_state w sp) = (s, r) ->
        event_of midas_depthmappreprocessor_50 (log s) = Some ev ->
        ev_outcome ev = Raise e ->
        r = Raise e /\ invocations finale (log s) = 0%nat
        /\ saved_images (log s) = None).
Proof.
  intros H1 H2.
  run_main H1 Hb1 ltac:(fun H' => discriminate H').
  injection Hb1 as <-.
  run_main_with ltac:(crunch_midas g) H2 Hb2
    ltac:(fun H' => discriminate H').
  injection Hb2 as <-.
  unfold_logs.
  split; [reflexivity |].
  split; [eexists; reflexivity |].
  split; [exact midas_not_consumed |].
  split; [reflexivity |].
  split; [reflexivity |].
  intros s r ev e. apply midas_failure_prevents_save.
Qed.

Lemma midas_output_does_not_reach_save_witness :
  saved_images (log (fst demo_run)) = saved_images (log (fst other_midas_run))
  /\ event_of midas_depthmappreprocessor_50 (log (fst demo_run))
     <> event_of midas_depthmappreprocessor_50 (log (fst other_midas_run)).
Proof.
  split.
  - apply (midas_output_does_not_reach_save demo other_midas 0%nat []
             (fst demo_run) (fst other_midas_run)).
    + vm_compute. reflexivity.
    + vm_compute. reflexivity.
  - vm_compute. discriminate.
Defined.

(** * Further properties *)

(** ** The search for a path *)

Lemma existsb_eqb_In (name : string) (entries : list string) :
  existsb (String.eqb name) entries = true <-> In name entries.
Proof.
  rewrite existsb_exists. split.
  - intros (x & Hin & Heq). apply String.eqb_eq in Heq. subst. exact Hin.
  - intros Hin. exists name. split; [exact Hin | apply String.eqb_refl].
Qed.

Lemma existsb_eqb_not_In (name : string) (entries : list string) :
  existsb (String.eqb name) entries = false -> ~ In name entries.
Proof.
  intros Hf Hin. apply existsb_eqb_In in Hin. congruence.
Qed.

Ltac use_eqs :=
  repeat match goal with
         | H : os_listdir _ _ _ = _ |- _ => rewrite H; clear H
         | H : existsb _ _ = _ |- _ => rewrite H; clear H
         | H : string_dec _ _ = _ |- _ => rewrite H; clear H
         end.

Lemma find_path_from_step {W} (E : externals W) (name path : string)
    (s : state W) :
  find_path_from E name path s
  = match os_listdir E (world s) path with
    | Raise e => (s, Raise e)
    | Ok entries =>
        if existsb (String.eqb name) entries
        then (fst (print (VStr (name ++ " found: " ++ join path name)) s),
              Ok (Some (join path name)))
        else if string_dec (dirname path) path then (s, Ok None)
             else find_path_from E name (dirname path) s
    end.
Proof.
  funelim (find_path_from E name path s); use_eqs; reflexivity.
Qed.

(** The search as a whole: it passes over [n] directories and ends in the
    one [n] levels up, by finding the name there, by meeting the root, or
    by failing to list it. *)
Lemma find_path_from_cases {W} (E : externals W) (name path : string)
    (s : state W) :
  exists n,
    (forall m, (m < n)%nat -> passed_over E (world s) name path m)
    /\ match snd (find_path_from E name path s) with
       | Ok (Some p) =>
           exists entries,
             os_listdir E (world s) (ancestor n path) = Ok entries
             /\ In name entries /\ p = join (ancestor n path) name
       | Ok None =>
           (exists entries,
               os_listdir E (world s) (ancestor n path) = Ok entries
               /\ ~ In name entries)
           /\ dirname (ancestor n path) = ancestor n path
       | Raise e => os_listdir E (world s) (ancestor n path) = Raise e
       end.
Proof.
  funelim (find_path_from E name path s).
  - exists 0%nat. split; [intros m Hm; lia | exact Heq].
  - exists 0%nat. split; [intros m Hm; lia |]. simpl.
    exists entries. repeat split; [exact Heq0 | apply existsb_eqb_In, Heq].
  - exists 0%nat. split; [intros m Hm; lia |]. simpl.
    split; [| assumption].
    exists entries. split; [exact Heq1 | apply existsb_eqb_not_In, Heq0].
  - destruct H as (n & Hpassed & Hend).
    exists (S n). split; [| exact Hend].
    intros [| m] Hm.
    + split; [| exact Hparent]. simpl.
      exists entries. split; [exact Heq1 | apply existsb_eqb_not_In, Heq0].
    + simpl. apply Hpassed. lia.
Qed.

Lemma find_path_from_effect {W} (E : externals W) (name path : string)
    (s : state W) :
  let s' := fst (find_path_from E name path s) in
  let r := snd (find_path_from E name path s) in
  world s' = world s /\ sys_path s' = sys_path s
  /\ frame s' = frame s /\ log s' = log s
  /\ stdout s' = (stdout s ++ found_line name r)%list.
Proof.
  funelim (find_path_from E name path s); simpl;
    rewrite ?app_nil_r; auto.
Qed.

Lemma find_path_from_world {W} (E : externals W) (name path : string)
    (s1 s2 : state W) :
  world s1 = world s2 ->
  snd (find_path_from E name path s1) = snd (find_path_from E name path s2).
Proof.
  intros Hw.
  funelim (find_path_from E name path s1);
    rewrite (find_path_from_step E name path s2), <- Hw; use_eqs;
    auto.
Qed.

(** ** More on value resolution *)

Lemma dict_get_absent (k : key) (items : list (key * value)) :
  (forall k' v, In (k', v) items -> key_eqb k k' = false) ->
  dict_get k items = None.
Proof.
  induction items as [| [k' v] rest IH]; intros Hne; simpl; [reflexivity |].
  rewrite (Hne k' v (or_introl eq_refl)).
  apply IH. intros k'' v' Hin. apply (Hne k'' v'). right. exact Hin.
Qed.

(** X1: a value that is returned is an element of what was given: either
    [obj[i]] itself, or [obj["result"][i]] for a mapping [obj] without the
    key [i]; nothing else is ever returned. *)
Theorem resolved_value_is_an_element (obj : value) (i : Z) (v : value) :
  get_value_at_index obj i = Ok v ->
  getitem obj (KInt i) = Ok v
  \/ exists items sub,
       obj = VDict items
       /\ dict_get (KInt i) items = None
       /\ dict_get (KStr "result") items = Some sub
       /\ getitem sub (KInt i) = Ok v.
Proof.
  unfold get_value_at_index.
  destruct (getitem obj (KInt i)) as [v0 | e] eqn:Hg; [auto |].
  destruct e as [k | | | |]; try discriminate.
  apply getitem_KeyError in Hg as (items & -> & Hd & _).
  simpl. destruct (dict_get (KStr "result") items) as [sub |] eqn:Hr;
    [| discriminate].
  intros Hsub. right. exists items, sub. auto.
Qed.

Lemma resolved_value_is_an_element_witness :
  getitem (VDict [(KStr "ui", VDict []); (KStr "result", VList [VInt 7])])
          (KInt 0) = Ok (VInt 7)
  \/ exists items sub,
       VDict [(KStr "ui", VDict []); (KStr "result", VList [VInt 7])]
         = VDict items
       /\ dict_get (KInt 0) items = None
       /\ dict_get (KStr "result") items = Some sub
       /\ getitem sub (KInt 0) = Ok (VInt 7).
Proof.
  apply (resolved_value_is_an_element
           (VDict [(KStr "ui", VDict []); (KStr "result", VList [VInt 7])])
           0 (VInt 7)).
  reflexivity.
Defined.

(** X2: the fallback goes one level down and no further.  For a mapping
    without the key [i]: without the key "result" the error is the KeyError
    of "result"; with it, the outcome is that of indexing the
    sub-collection, whatever it is: an IndexError when it is too short,
    and again a KeyError of [i] when it is itself a mapping without [i],
    even one that has a "result" of its own. *)
Theorem fallback_is_one_level (items : list (key * value)) (i : Z) :
  dict_get (KInt i) items = None ->
  (dict_get (KStr "result") items = None ->
     get_value_at_index (VDict items) i = Raise (KeyError (KStr "result")))
  /\ (forall sub, dict_get (KStr "result") items = Some sub ->
        get_value_at_index (VDict items) i = getitem sub (KInt i))
  /\ (forall xs, dict_get (KStr "result") items = Some (VList xs) ->
        Z.of_nat (List.length xs) <= i ->
        get_value_at_index (VDict items) i = Raise IndexError)
  /\ (forall inner, dict_get (KStr "result") items = Some (VDict inner) ->
        dict_get (KInt i) inner = None ->
        get_value_at_index (VDict items) i = Raise (KeyError (KInt i))).
Proof.
  intros Hd. unfold get_value_at_index. simpl. rewrite Hd.
  split; [| split; [| split]].
  - intros ->. reflexivity.
  - intros sub ->. reflexivity.
  - intros xs -> Hlen. simpl. apply seq_index_past_end. exact Hlen.
  - intros inner -> Hin. simpl. rewrite Hin. reflexivity.
Qed.

Lemma fallback_is_one_level_witness :
  get_value_at_index
    (VDict [(KStr "result",
             VDict [(KStr "result", VList [VInt 7; VInt 8])])]) 1
  = Raise (KeyError (KInt 1)).
Proof.
  apply (proj2 (proj2 (proj2 (fallback_is_one_level
           [(KStr "result",
             VDict [(KStr "result", VList [VInt 7; VInt 8])])] 1
           eq_refl)))
         [(KStr "result", VList [VInt 7; VInt 8])]);
    reflexivity.
Defined.

(** X3: a mapping is never indexed by position.  When all its keys are
    strings other than "result", resolution raises the KeyError of
    "result" for every index, however many entries there are: the value
    at the index-th key, which the docstring announces, is not what is
    returned. *)
Theorem string_keyed_mapping_never_resolves (items : list (key * value))
    (i : Z) :
  (forall k v, In (k, v) items -> exists s, k = KStr s /\ s <> "result") ->
  get_value_at_index (VDict items) i = Raise (KeyError (KStr "result")).
Proof.
  intros Hkeys.
  assert (Hi : dict_get (KInt i) items = None).
  { apply dict_get_absent. intros k v Hin.
    destruct (Hkeys k v Hin) as (s & -> & _). reflexivity. }
  assert (Hr : dict_get (KStr "result") items = None).
  { apply dict_get_absent. intros k v Hin.
    destruct (Hkeys k v Hin) as (s & -> & Hs).
    change (String.eqb "result" s = false).
    apply String.eqb_neq. congruence. }
  unfold get_value_at_index. simpl. rewrite Hi, Hr. reflexivity.
Qed.

Lemma string_keyed_mapping_never_resolves_witness :
  get_value_at_index
    (VDict [(KStr "model", VOpaque 1); (KStr "clip", VOpaque 2)]) 1
  = Raise (KeyError (KStr "result")).
Proof.
  apply (string_keyed_mapping_never_resolves
           [(KStr "model", VOpaque 1); (KStr "clip", VOpaque 2)] 1).
  intros k v [H | [H | []]]; injection H as <- <-.
  - exists "model". split; [reflexivity | discriminate].
  - exists "clip". split; [reflexivity | discriminate].
Defined.

(** ** More on the bootstrap *)

Lemma find_path_cases {W} (E : externals W) (name : string)
    (path : option string) (s : state W) (dir : string) :
  search_start E path (world s) = Ok dir ->
  find_path E name path s = find_path_from E name dir s.
Proof.
  destruct path as [p |]; simpl.
  - intros H. injection H as ->. reflexivity.
  - intros ->. reflexivity.
Qed.

(** The effect of [find_path] on the state, whatever it returns. *)
Lemma find_path_effect {W} (E : externals W) (name : string)
    (path : option string) (s : state W) :
  let s' := fst (find_path E name path s) in
  let r := snd (find_path E name path s) in
  world s' = world s /\ sys_path s' = sys_path s
  /\ frame s' = frame s /\ log s' = log s
  /\ stdout s' = (stdout s ++ found_line name r)%list.
Proof.
  destruct (search_start E path (world s)) as [dir | e] eqn:Hstart.
  - rewrite (find_path_cases E name path s dir Hstart).
    apply find_path_from_effect.
  - destruct path as [p |]; simpl in Hstart; [discriminate |].
    simpl. rewrite Hstart. simpl. rewrite app_nil_r. auto.
Qed.

(** The outcome of [find_path], read off the directories it went through. *)
Lemma find_path_outcome {W} (E : externals W) (name : string)
    (path : option string) (s : state W) :
  match search_start E path (world s) with
  | Raise e => snd (find_path E name path s) = Raise e
  | Ok dir =>
      exists n,
        (forall m, (m < n)%nat -> passed_over E (world s) name dir m)
        /\ match snd (find_path E name path s) with
           | Ok (Some p) =>
               exists entries,
                 os_listdir E (world s) (ancestor n dir) = Ok entries
                 /\ In name entries /\ p = join (ancestor n dir) name
           | Ok None =>
               (exists entries,
                   os_listdir E (world s) (ancestor n dir) = Ok entries
                   /\ ~ In name entries)
               /\ dirname (ancestor n dir) = ancestor n dir
           | Raise e => os_listdir E (world s) (ancestor n dir) = Raise e
           end
  end.
Proof.
  destruct (search_start E path (world s)) as [dir | e] eqn:Hstart.
  - rewrite (find_path_cases E name path s dir Hstart).
    apply find_path_from_cases.
  - destruct path as [p |]; simpl in Hstart; [discriminate |].
    simpl. rewrite Hstart. reflexivity.
Qed.

(** X4: [find_path] only reads and prints.  It leaves the world,
    [sys.path] and everything else as they were, and prints one line, the
    name and the path found, exactly when it returns a path. *)
Theorem find_path_only_prints {W} (E : externals W) (name : string)
    (path : option string) (s s' : state W) (r : result (option string)) :
  find_path E name path s = (s', r) ->
  world s' = world s /\ sys_path s' = sys_path s
  /\ frame s' = frame s /\ log s' = log s
  /\ stdout s' = (stdout s ++ found_line name r)%list.
Proof.
  intros H. pose proof (find_path_effect E name path s) as Heff.
  rewrite H in Heff. exact Heff.
Qed.

Lemma find_path_only_prints_witness :
  stdout (fst (find_path demo "ComfyUI" None (initial_state 0%nat [])))
  = ([] ++ found_line "ComfyUI" (Ok (Some "/srv/app/ComfyUI")))%list.
Proof.
  apply (find_path_only_prints demo "ComfyUI" None (initial_state 0%nat [])
           (fst (find_path demo "ComfyUI" None (initial_state 0%nat [])))
           (Ok (Some "/srv/app/ComfyUI"))).
  vm_compute. reflexivity.
Defined.

(** X5: a path that is returned is the name joined to the nearest
    directory, from the start upwards, that lists the name: every
    directory below it was listed and did not have it. *)
Theorem find_path_returns_nearest {W} (E : externals W) (name : string)
    (path : option string) (s s' : state W) (p : string) :
  find_path E name path s = (s', Ok (Some p)) ->
  exists dir n entries,
    search_start E path (world s) = Ok dir
    /\ os_listdir E (world s) (ancestor n dir) = Ok entries
    /\ In name entries
    /\ p = join (ancestor n dir) name
    /\ forall m, (m < n)%nat -> passed_over E (world s) name dir m.
Proof.
  intros H. pose proof (find_path_outcome E name path s) as Hout.
  rewrite H in Hout. simpl in Hout.
  destruct (search_start E path (world s)) as [dir | e];
    [| discriminate Hout].
  destruct Hout as (n & Hpassed & entries & Hl & Hin & Hp).
  exists dir, n, entries. auto.
Qed.

Lemma find_path_returns_nearest_witness :
  exists dir n entries,
    search_start demo None 0%nat = Ok dir
    /\ os_listdir demo 0%nat (ancestor n dir) = Ok entries
    /\ In "ComfyUI" entries
    /\ "/srv/app/ComfyUI" = join (ancestor n dir) "ComfyUI"
    /\ forall m, (m < n)%nat -> passed_over demo 0%nat "ComfyUI" dir m.
Proof.
  apply (find_path_returns_nearest demo "ComfyUI" None
           (initial_state 0%nat [])
           (fst (find_path demo "ComfyUI" None (initial_state 0%nat [])))).
  vm_compute. reflexivity.
Defined.

(** X6: None is returned only after every directory from the start up to
    the root has been listed without showing the name. *)
Theorem find_path_none_is_exhaustive {W} (E : externals W) (name : string)
    (path : option string) (s s' : state W) :
  find_path E name path s = (s', Ok None) ->
  exists dir n,
    search_start E path (world s) = Ok dir
    /\ dirname (ancestor n dir) = ancestor n dir
    /\ forall m, (m <= n)%nat ->
         exists entries,
           os_listdir E (world s) (ancestor m dir) = Ok entries
           /\ ~ In name entries.
Proof.
  intros H. pose proof (find_path_outcome E name path s) as Hout.
  rewrite H in Hout. simpl in Hout.
  destruct (search_start E path (world s)) as [dir | e];
    [| discriminate Hout].
  destruct Hout as (n & Hpassed & Hlast & Hroot).
  exists dir, n. repeat split; [exact Hroot |].
  intros m Hm. destruct (Nat.eq_dec m n) as [-> | Hne]; [exact Hlast |].
  apply Hpassed. lia.
Qed.

Lemma find_path_none_is_exhaustive_witness :
  exists dir n,
    search_start (demo_externals "/srv" never_fails) None 0%nat = Ok dir
    /\ dirname (ancestor n dir) = ancestor n dir
    /\ forall m, (m <= n)%nat ->
         exists entries,
           os_listdir (demo_externals "/srv" never_fails) 0%nat
                      (ancestor m dir) = Ok entries
           /\ ~ In "ComfyUI" entries.
Proof.
  apply (find_path_none_is_exhaustive (demo_externals "/srv" never_fails)
           "ComfyUI" None (initial_state 0%nat [])
           (fst (find_path (demo_externals "/srv" never_fails) "ComfyUI"
                   None (initial_state 0%nat [])))).
  vm_compute. reflexivity.
Defined.

(** X7: [find_path] has no handler.  When it raises, the exception is the
    one of [os.getcwd], or the one of [os.listdir] on the first directory,
    from the start upwards, that could not be listed; the directories
    below were listed without showing the name; and nothing was printed. *)
Theorem find_path_raises_what_listing_raises {W} (E : externals W)
    (name : string) (path : option string) (s s' : state W) (e : exn) :
  find_path E name path s = (s', Raise e) ->
  s' = s
  /\ (search_start E path (world s) = Raise e
      \/ exists dir n,
           search_start E path (world s) = Ok dir
           /\ os_listdir E (world s) (ancestor n dir) = Raise e
           /\ forall m, (m < n)%nat -> passed_over E (world s) name dir m).
Proof.
  intros H.
  pose proof (find_path_effect E name path s) as Heff.
  pose proof (find_path_outcome E name path s) as Hout.
  rewrite H in Heff, Hout. simpl in Heff, Hout.
  split.
  - destruct Heff as (Hw & Hp & Hf & Hl & Ho). rewrite app_nil_r in Ho.
    destruct s, s'; simpl in *; congruence.
  - destruct (search_start E path (world s)) as [dir | e0].
    + right. destruct Hout as (n & Hpassed & Hlist). exists dir, n. auto.
    + left. congruence.
Qed.

Lemma find_path_raises_what_listing_raises_witness :
  fst (find_path demo_lost "ComfyUI" None (initial_state 0%nat []))
  = initial_state 0%nat []
  /\ (search_start demo_lost None
        (world (initial_state 0%nat [])) = Raise (Failure "FileNotFoundError")
      \/ exists dir n,
           search_start demo_lost None (world (initial_state 0%nat []))
           = Ok dir
           /\ os_listdir demo_lost (world (initial_state 0%nat []))
                         (ancestor n dir)
              = Raise (Failure "FileNotFoundError")
           /\ forall m, (m < n)%nat ->
                passed_over demo_lost (world (initial_state 0%nat []))
                            "ComfyUI" dir m).
Proof.
  apply (find_path_raises_what_listing_raises demo_lost "ComfyUI" None
           (initial_state 0%nat [])).
  vm_compute. reflexivity.
Defined.

Lemma find_path_world {W} (E : externals W) (name : string)
    (path : option string) (s1 s2 : state W) :
  world s1 = world s2 ->
  snd (find_path E name path s1) = snd (find_path E name path s2).
Proof.
  intros Hw. destruct path as [p |]; simpl.
  - apply find_path_from_world. exact Hw.
  - rewrite <- Hw.
    destruct (os_getcwd E (world s1)) as [cwd | e]; [| reflexivity].
    apply find_path_from_world. exact Hw.
Qed.

(** What [add_comfyui_directory_to_sys_path] does, in full. *)
Lemma add_comfyui_effect {W} (E : externals W) (s s' : state W)
    (r : result unit) :
  add_comfyui_directory_to_sys_path E s = (s', r) ->
  let found := snd (find_path E "ComfyUI" None s) in
  let added :=
    match found with
    | Ok (Some p) => if os_isdir E (world s) p then [p] else []
    | _ => []
    end in
  world s' = world s /\ frame s' = frame s /\ log s' = log s
  /\ sys_path s' = (sys_path s ++ added)%list
  /\ stdout s'
     = (stdout s ++ found_line "ComfyUI" found
          ++ map (fun p => VStr ("'" ++ p ++ "' added to sys.path")) added)%list
  /\ r = match found with
         | Raise e => Raise e
         | Ok _ => Ok tt
         end.
Proof.
  unfold add_comfyui_directory_to_sys_path, bind.
  pose proof (find_path_effect E "ComfyUI" None s) as Heff.
  destruct (find_path E "ComfyUI" None s) as [s0 found] eqn:Hfind.
  destruct Heff as (Hw & Hp & Hf & Hl & Ho).
  destruct found as [[p |] | e]; simpl in *.
  - rewrite Hw. destruct (os_isdir E (world s) p);
      intros H; injection H as <- <-; simpl;
      rewrite Ho, Hp, ?app_nil_r, <- ?app_assoc; simpl;
      repeat split; assumption.
  - intros H; injection H as <- <-. rewrite !app_nil_r in *.
    repeat split; assumption.
  - intros H; injection H as <- <-. rewrite !app_nil_r in *.
    repeat split; assumption.
Qed.

(** X8: the call is not idempotent.  A second call meets the same world,
    finds the same path and appends it again: whatever the first call
    added to [sys.path], the second adds once more, without looking at
    what is already there. *)
Theorem add_comfyui_twice_appends_twice {W} (E : externals W)
    (s s1 s2 : state W) (r1 r2 : result unit) :
  add_comfyui_directory_to_sys_path E s = (s1, r1) ->
  add_comfyui_directory_to_sys_path E s1 = (s2, r2) ->
  r2 = r1
  /\ exists added,
       sys_path s1 = (sys_path s ++ added)%list
       /\ sys_path s2 = (sys_path s ++ added ++ added)%list
       /\ (added = []
           \/ exists p, added = [p]
                        /\ snd (find_path E "ComfyUI" None s) = Ok (Some p)
                        /\ os_isdir E (world s) p = true).
Proof.
  intros H1 H2.
  apply add_comfyui_effect in H1. apply add_comfyui_effect in H2.
  cbv zeta in H1, H2.
  destruct H1 as (Hw1 & _ & _ & Hp1 & _ & Hr1).
  destruct H2 as (_ & _ & _ & Hp2 & _ & Hr2).
  rewrite (find_path_world E "ComfyUI" None s1 s Hw1) in Hp2, Hr2.
  rewrite Hw1 in Hp2.
  split; [congruence |].
  destruct (snd (find_path E "ComfyUI" None s)) as [[p |] | e].
  - destruct (os_isdir E (world s) p) eqn:Hdir.
    + exists [p]. split; [exact Hp1 |].
      split; [rewrite Hp2, Hp1, <- app_assoc; reflexivity |].
      right. exists p. auto.
    + exists []. rewrite Hp2, Hp1, !app_nil_r. auto.
  - exists []. rewrite Hp2, Hp1, !app_nil_r. auto.
  - exists []. rewrite Hp2, Hp1, !app_nil_r. auto.
Qed.

Lemma add_comfyui_twice_appends_twice_witness :
  sys_path
    (fst (add_comfyui_directory_to_sys_path demo
            (fst (add_comfyui_directory_to_sys_path demo
                    (initial_state 0%nat ["/usr/lib/python3"])))))
  = ["/usr/lib/python3"; "/srv/app/ComfyUI"; "/srv/app/ComfyUI"].
Proof.
  destruct (add_comfyui_twice_appends_twice demo
              (initial_state 0%nat ["/usr/lib/python3"])
              (fst (add_comfyui_directory_to_sys_path demo
                      (initial_state 0%nat ["/usr/lib/python3"])))
              (fst (add_comfyui_directory_to_sys_path demo
                      (fst (add_comfyui_directory_to_sys_path demo
                              (initial_state 0%nat ["/usr/lib/python3"])))))
              (Ok tt) (Ok tt) eq_refl eq_refl)
    as (_ & added & H1 & H2 & _).
  vm_compute in H1.
  destruct added as [| p [| p' rest]]; try discriminate H1.
  injection H1 as <-. exact H2.
Defined.

(** X9: the call itself changes [sys.path] and standard output only, and
    raises only what the search raised.  It prints the line of the search
    when the name was found, followed by its own line when the path was
    appended, so a name found that is not a directory leaves the first
    line alone. *)
Theorem add_comfyui_prints_and_propagates {W} (E : externals W)
    (s s' : state W) (r : result unit) :
  add_comfyui_directory_to_sys_path E s = (s', r) ->
  world s' = world s /\ frame s' = frame s /\ log s' = log s
  /\ match snd (find_path E "ComfyUI" None s) with
     | Ok (Some p) =>
         r = Ok tt
         /\ stdout s'
            = (stdout s ++ VStr ("ComfyUI found: " ++ p)
                 :: (if os_isdir E (world s) p
                     then [VStr ("'" ++ p ++ "' added to sys.path")]
                     else []))%list
     | Ok None => r = Ok tt /\ stdout s' = stdout s
     | Raise e => r = Raise e /\ stdout s' = stdout s
     end.
Proof.
  intros H. apply add_comfyui_effect in H. cbv zeta in H.
  destruct H as (Hw & Hf & Hl & _ & Ho & Hr).
  repeat (split; [assumption |]).
  destruct (snd (find_path E "ComfyUI" None s)) as [[p |] | e]; simpl in *.
  - split; [exact Hr |]. rewrite Ho.
    destruct (os_isdir E (world s) p); reflexivity.
  - rewrite app_nil_r in Ho. auto.
  - rewrite app_nil_r in Ho. auto.
Qed.

Lemma add_comfyui_prints_and_propagates_witness :
  stdout (fst (add_comfyui_directory_to_sys_path
                 (demo_externals "/tmp" never_fails)
                 (initial_state 0%nat [])))
  = [VStr "ComfyUI found: /tmp/ComfyUI"]
  /\ stdout (fst (add_comfyui_directory_to_sys_path demo
                    (initial_state 0%nat [])))
     = [VStr "ComfyUI found: /srv/app/ComfyUI";
        VStr "'/srv/app/ComfyUI' added to sys.path"].
Proof.
  split.
  - exact (proj2 (proj2 (proj2 (proj2
             (add_comfyui_prints_and_propagates
                (demo_externals "/tmp" never_fails)
                (initial_state 0%nat [])
                (fst (add_comfyui_directory_to_sys_path
                        (demo_externals "/tmp" never_fails)
                        (initial_state 0%nat [])))
                (Ok tt) eq_refl))))).
  - exact (proj2 (proj2 (proj2 (proj2
             (add_comfyui_prints_and_propagates demo
                (initial_state 0%nat [])
                (fst (add_comfyui_directory_to_sys_path demo
                        (initial_state 0%nat [])))
                (Ok tt) eq_refl))))).
Defined.

(** X10: what [add_extra_model_paths] does, case by case.  It never
    touches [sys.path] or the locals.  When the import of the loader
    raises, or the working directory cannot be read, it raises the same
    and prints nothing.  Otherwise there is a level [n] above the working
    directory such that every directory below that level was listed
    without the name [extra_model_paths.yaml] and was not the root, and
    at level [n]: if the listing raises, so does the function; if the name
    is listed, the loader is called once, in the world the import left,
    with that directory joined with the name (so with the nearest such
    path, whatever kind of entry it is), the function ends as the loader
    ends, and the [found] line is printed; if the name is not listed,
    level [n] is the root, the loader is not called, and the message is
    printed. *)
Theorem add_extra_model_paths_cases {W} (E : externals W)
    (L : config_loader W) (s s' : state W) (r : result unit) :
  add_extra_model_paths E L s = (s', r) ->
  sys_path s' = sys_path s /\ frame s' = frame s /\ log s' = log s
  /\ match import_main L (world s) with
     | (w1, Raise e) => world s' = w1 /\ r = Raise e /\ stdout s' = stdout s
     | (w1, Ok _) =>
         match os_getcwd E w1 with
         | Raise e => world s' = w1 /\ r = Raise e /\ stdout s' = stdout s
         | Ok dir =>
             exists n,
               (forall m, (m < n)%nat ->
                          passed_over E w1 "extra_model_paths.yaml" dir m)
               /\ match os_listdir E w1 (ancestor n dir) with
                  | Raise e =>
                      world s' = w1 /\ r = Raise e /\ stdout s' = stdout s
                  | Ok entries =>
                      (In "extra_model_paths.yaml" entries ->
                       (world s', r)
                       = load_extra_path_config L
                           (join (ancestor n dir) "extra_model_paths.yaml") w1
                       /\ stdout s'
                          = (stdout s
                               ++ [VStr ("extra_model_paths.yaml found: "
                                           ++ join (ancestor n dir)
                                                "extra_model_paths.yaml")])%list)
                      /\ (~ In "extra_model_paths.yaml" entries ->
                          dirname (ancestor n dir) = ancestor n dir
                          /\ world s' = w1 /\ r = Ok tt
                          /\ stdout s'
                             = (stdout s
                                  ++ [VStr "Could not find the extra_model_paths config file."])%list)
                  end
         end
     end.
Proof.
  unfold add_extra_model_paths, bind, external_step.
  intros H.
  destruct (import_main L (world s)) as [w1 [[] | e]];
    [| injection H as <- <-; cbn [world sys_path stdout frame log set_world];
       repeat split].
  pose proof (find_path_effect E "extra_model_paths.yaml" None
                (set_world w1 s)) as Heff.
  pose proof (find_path_outcome E "extra_model_paths.yaml" None
                (set_world w1 s)) as Hout.
  destruct (find_path E "extra_model_paths.yaml" None (set_world w1 s))
    as [s0 found].
  destruct Heff as (Hw & Hp & Hf & Hl & Ho).
  cbn [world sys_path stdout frame log set_world snd fst search_start]
    in Hw, Hp, Hf, Hl, Ho, Hout |- *.
  destruct (os_getcwd E w1) as [dir | e0].
  - destruct Hout as (n & Hbelow & Hat).
    destruct found as [[p |] | e]; cbn [found_line] in Ho.
    + rewrite Hw in H.
      destruct (load_extra_path_config L p w1) as [w2 r2] eqn:Hload.
      injection H as <- <-.
      cbn [world sys_path stdout frame log set_world].
      repeat (split; [assumption |]).
      exists n. split; [exact Hbelow |].
      destruct Hat as (entries & -> & Hin & ->).
      split; [| intros Hno; destruct (Hno Hin)].
      intros _. rewrite Hload. split; [reflexivity | exact Ho].
    + rewrite app_nil_r in Ho. injection H as <- <-.
      cbn [world sys_path stdout frame log set_world print fst].
      repeat (split; [assumption |]).
      exists n. split; [exact Hbelow |].
      destruct Hat as ((entries & -> & Hno) & Hroot).
      split; [intros Hin; destruct (Hno Hin) |].
      intros _. rewrite Ho. repeat split; assumption.
    + rewrite app_nil_r in Ho. injection H as <- <-.
      repeat (split; [assumption |]).
      exists n. split; [exact Hbelow |].
      rewrite Hat. repeat split; assumption.
  - rewrite Hout in H. rewrite Hout in Ho. cbn [found_line] in Ho.
    rewrite app_nil_r in Ho. injection H as <- <-.
    repeat split; assumption.
Qed.

(** On the file system that lists the configuration file one level and
    three levels above the working directory, the loader is called once,
    with the path one level up; in the root of the demo file system, which
    does not list it, the loader is not called. *)
Lemma add_extra_model_paths_cases_witness :
  ((world (fst configured_run), snd configured_run)
   = load_extra_path_config recording_loader
       "/srv/app/ComfyUI/extra_model_paths.yaml" []
   /\ world (fst configured_run) = ["/srv/app/ComfyUI/extra_model_paths.yaml"]
   /\ stdout (fst configured_run)
      = [VStr "extra_model_paths.yaml found: /srv/app/ComfyUI/extra_model_paths.yaml"])
  /\ (world (fst (add_extra_model_paths (demo_externals "/" never_fails)
                    demo_loader (initial_state 0%nat []))) = 0%nat
      /\ snd (add_extra_model_paths (demo_externals "/" never_fails)
                demo_loader (initial_state 0%nat [])) = Ok tt
      /\ stdout (fst (add_extra_model_paths (demo_externals "/" never_fails)
                        demo_loader (initial_state 0%nat [])))
         = [VStr "Could not find the extra_model_paths config file."]).
Proof.
  split.
  - destruct (add_extra_model_paths_cases configured recording_loader
                (initial_state [] []) (fst configured_run)
                (snd configured_run))
      as (_ & _ & _ & n & Hbelow & Hat); [vm_compute; reflexivity |].
    destruct n as [| [| n]].
    + destruct Hat as [_ Hno].
      destruct Hno as [Hroot _]; [| vm_compute in Hroot; discriminate Hroot].
      vm_compute. intros [H | []]. discriminate H.
    + destruct Hat as [Hfound _].
      destruct Hfound as [Hload Hout]; [vm_compute; tauto |].
      split; [exact Hload |].
      split; [exact (f_equal fst Hload) | exact Hout].
    + destruct (Hbelow 1%nat) as [(entries & Hlist & Hno) _]; [lia |].
      vm_compute in Hlist. injection Hlist as <-.
      exfalso. apply Hno. vm_compute. tauto.
  - destruct (add_extra_model_paths_cases (demo_externals "/" never_fails)
                demo_loader (initial_state 0%nat [])
                (fst (add_extra_model_paths (demo_externals "/" never_fails)
                        demo_loader (initial_state 0%nat [])))
                (snd (add_extra_model_paths (demo_externals "/" never_fails)
                        demo_loader (initial_state 0%nat []))))
      as (_ & _ & _ & n & Hbelow & Hat); [vm_compute; reflexivity |].
    destruct n as [| n].
    + destruct Hat as [_ Hno].
      destruct Hno as (_ & Hw & Hr & Hout).
      * vm_compute. intros [H | [H | []]]; discriminate H.
      * split; [exact Hw |]. split; [exact Hr | exact Hout].
    + destruct (Hbelow 0%nat) as [_ Hroot]; [lia |].
      exfalso. apply Hroot. vm_compute. reflexivity.
Defined.

(** The world in which [random.randint] was called is the one to show. *)
Ltac show_seed :=
  match goal with
  | Hr : random_randint _ _ _ ?w = _ |- exists _, _ =>
      exists w; rewrite Hr; cbv beta iota;
      repeat split;
      first [ reflexivity
            | match goal with
              | Hi : invoke _ _ _ _ _ = _ |- _ = match invoke _ _ _ _ _ with _ => _ end =>
                  rewrite Hi; reflexivity
              end ]
  end.

Ltac close_shape :=
  unfold_logs;
  cbv -[get_value_at_index getitem random_randint invoke Z.pow];
  repeat split; first [reflexivity | assumption | show_seed].

(** What else holds of every run of [main]: the nodes invoked are an
    initial part of the pipeline, each at most once; an exception ends the
    run where it is raised; every invocation is as its node declares it;
    bindings are only added to the locals; printing happens at the very
    end; the save operation reads the decode output by subscription; and
    the seed the sampler is passed is what [random.randint(1, 2**64)]
    returned just before. *)
Lemma main_run_shape {W} (E : externals W) (w : W) (sp : list string)
    (s1 : state W) (r : result unit) :
  main E (initial_state w sp) = (s1, r) ->
  is_prefix (map ev_node (log s1)) pipeline_order
  /\ complete_order (log s1) r
  /\ each_at_most_once pipeline_order (log s1)
  /\ raise_is_last (log s1) r
  /\ all_as_declared E (log s1)
  /\ frames_grow [] (log s1) (frame s1)
  /\ printed s1 r
  /\ save_subscripts_decode (log s1)
  /\ seed_drawn E (log s1).
Proof.
  intros H.
  run_main H Hb
    ltac:(fun H' => solve [injection H' as <- <-; close_shape]).
  injection Hb as <- <-; close_shape.
Qed.

Lemma decl_of_Some (x : var) (d : node_decl) :
  decl_of x = Some d -> In d pipeline /\ nd_id d = x.
Proof.
  unfold decl_of. intros H. apply find_some in H as [Hin Hx].
  split; [exact Hin | apply var_eqb_eq, Hx].
Qed.

Lemma no_event_not_invoked (x : var) (l : list event) :
  event_of x l = None -> invocations x l = 0%nat.
Proof.
  unfold invocations, event_of.
  induction l as [| ev rest IH]; simpl; [reflexivity |].
  destruct (var_eqb (ev_node ev) x); [discriminate | exact IH].
Qed.

Lemma is_prefix_firstn (xs ys : list var) :
  is_prefix xs ys -> xs = firstn (List.length xs) ys.
Proof.
  revert ys. induction xs as [| x xs IH]; intros ys H; [reflexivity |].
  destruct ys as [| y ys]; simpl in H; [destruct H |].
  destruct H as [-> H]. simpl. f_equal. apply IH, H.
Qed.

Lemma each_at_most_once_In (xs : list var) (l : list event) (x : var) :
  each_at_most_once xs l -> In x xs -> (invocations x l <= 1)%nat.
Proof.
  induction xs as [| y ys IH]; simpl; [tauto |].
  intros [Hy Hys] [-> | Hin]; [apply Nat.leb_le, Hy | auto].
Qed.

Lemma raise_is_last_at (l : list event) (r : result unit) :
  raise_is_last l r ->
  forall pre ev post e,
    l = (pre ++ ev :: post)%list -> ev_outcome ev = Raise e ->
    post = [] /\ r = Raise e.
Proof.
  induction l as [| ev0 rest IH]; intros Hl pre ev post e Heq Hout.
  - destruct pre; discriminate Heq.
  - simpl in Hl.
    destruct pre as [| ev1 pre']; simpl in Heq; injection Heq as -> ->.
    + rewrite Hout in Hl. exact Hl.
    + destruct (ev_outcome ev1) as [out | e1].
      * eapply IH; eauto.
      * destruct Hl as [Hnil _]. destruct pre'; discriminate Hnil.
Qed.

Lemma all_as_declared_In {W} (E : externals W) (l : list event)
    (ev : event) :
  all_as_declared E l -> In ev l -> as_declared E ev.
Proof.
  induction l as [| ev0 rest IH]; simpl; [tauto |].
  intros [H0 Hrest] [<- | Hin]; auto.
Qed.

Lemma kwargs_denote_names {W} (E : externals W) (fr : frame_t)
    (kws : list (string * arg)) :
  forall vals, kwargs_denote E fr kws vals -> map fst vals = map fst kws.
Proof.
  induction kws as [| [n a] kws IH]; intros [| [n' v] vals] H;
    simpl in H; try destruct H as (-> & _ & H); try tauto.
  simpl. f_equal. apply IH, H.
Qed.

Lemma kwargs_denote_In {W} (E : externals W) (fr : frame_t)
    (kws : list (string * arg)) :
  forall vals name a,
    kwargs_denote E fr kws vals -> In (name, a) kws ->
    exists v, In (name, v) vals /\ arg_denotes E fr a v.
Proof.
  induction kws as [| [n a0] kws IH]; intros vals name a H Hin;
    [destruct Hin |].
  destruct vals as [| [n' v] vals]; simpl in H; [destruct H |].
  destruct H as (<- & Ha & Hrest).
  destruct Hin as [Heq | Hin].
  - injection Heq as -> ->. exists v. split; [left; reflexivity | exact Ha].
  - destruct (IH vals name a Hrest Hin) as (v' & Hin' & Hv').
    exists v'. split; [right; exact Hin' | exact Hv'].
Qed.

Lemma kwarg_In (name : string) (kws : list (string * value)) (v : value) :
  kwarg name kws = Some v -> In (name, v) kws.
Proof.
  induction kws as [| [n v0] rest IH]; simpl; [discriminate |].
  destruct (String.eqb name n) eqn:Hn.
  - apply String.eqb_eq in Hn. intros H. injection H as ->. subst n.
    left. reflexivity.
  - intros H. right. apply IH, H.
Qed.

Lemma invoked_In (x : var) (l : list event) (ev : event) :
  In ev l -> ev_node ev = x -> (1 <= invocations x l)%nat.
Proof.
  unfold invocations. induction l as [| ev0 rest IH]; simpl; [tauto |].
  intros [-> | Hin] Hx.
  - rewrite Hx, var_eqb_refl. simpl. lia.
  - specialize (IH Hin Hx).
    destruct (var_eqb (ev_node ev0) x); simpl; lia.
Qed.

Lemma event_of_the_only (x : var) (l : list event) (ev : event) :
  In ev l -> ev_node ev = x -> (invocations x l <= 1)%nat ->
  event_of x l = Some ev.
Proof.
  unfold invocations, event_of.
  induction l as [| ev0 rest IH]; simpl; [tauto |].
  intros Hin Hx Hle.
  destruct (var_eqb (ev_node ev0) x) eqn:H0.
  - destruct Hin as [-> | Hin]; [reflexivity |].
    pose proof (invoked_In x rest ev Hin Hx) as H1.
    unfold invocations in H1. simpl in Hle. lia.
  - destruct Hin as [-> | Hin]; [| auto].
    rewrite Hx, var_eqb_refl in H0. discriminate H0.
Qed.

Lemma frame_get_In (x : var) (v : value) (fr : frame_t) :
  frame_get x fr = Some v -> exists y, In (y, v) fr /\ var_eqb x y = true.
Proof.
  induction fr as [| [y w] rest IH]; simpl; [discriminate |].
  destruct (var_eqb x y) eqn:Hxy.
  - intros H. injection H as ->. exists y. auto.
  - intros H. destruct (IH H) as (y' & Hin & Hy'). exists y'. auto.
Qed.

Lemma frame_included_le (fr1 fr2 : frame_t) :
  frame_included fr1 fr2 -> frame_le fr1 fr2.
Proof.
  intros Hinc x v Hget.
  apply frame_get_In in Hget as (y & Hin & Hxy).
  apply var_eqb_eq in Hxy. subst y.
  induction fr1 as [| [y w] rest IH]; [destruct Hin |].
  destruct Hinc as [Hy Hrest].
  destruct Hin as [Heq | Hin]; [injection Heq as -> ->; exact Hy | auto].
Qed.

Lemma frame_le_trans (a b c : frame_t) :
  frame_le a b -> frame_le b c -> frame_le a c.
Proof. unfold frame_le. auto. Qed.

Lemma frames_grow_final (l : list event) :
  forall fr final, frames_grow fr l final -> frame_le fr final.
Proof.
  induction l as [| ev rest IH]; intros fr final H; simpl in H.
  - apply frame_included_le, H.
  - destruct H as [Hhere Hrest].
    eapply frame_le_trans; [apply frame_included_le, Hhere | eauto].
Qed.

Lemma frames_grow_at (l : list event) :
  forall fr final, frames_grow fr l final ->
  forall pre ev post, l = (pre ++ ev :: post)%list ->
    frame_le fr (ev_frame ev) /\ frames_grow (ev_frame ev) post final.
Proof.
  induction l as [| ev0 rest IH]; intros fr final H pre ev post Heq.
  - destruct pre; discriminate Heq.
  - destruct H as [Hhere Hrest].
    destruct pre as [| ev1 pre']; simpl in Heq; injection Heq as -> ->.
    + split; [apply frame_included_le, Hhere | exact Hrest].
    + destruct (IH _ _ Hrest pre' ev post eq_refl) as [Hle Hgrow].
      split; [| exact Hgrow].
      eapply frame_le_trans; [apply frame_included_le, Hhere | exact Hle].
Qed.

(** ** More on the runs of [main] *)

(** X11: [main] stops at the first exception.  In any run, an invocation
    that raised is the last one made, and the run ends with that very
    exception: no node operation is invoked after a failure, whichever
    node fails. *)
Theorem any_failure_ends_the_run {W} (E : externals W) (w : W)
    (sp : list string) (s1 : state W) (r : result unit)
    (pre post : list event) (ev : event) (e : exn) :
  main E (initial_state w sp) = (s1, r) ->
  log s1 = (pre ++ ev :: post)%list ->
  ev_outcome ev = Raise e ->
  post = [] /\ r = Raise e.
Proof.
  intros Hrun Hlog Hout.
  apply main_run_shape in Hrun as (_ & _ & _ & Hlast & _).
  eapply raise_is_last_at; eassumption.
Qed.

(** X12: in any run, complete or not, the nodes invoked are an initial
    part of the pipeline in the order written; so no node of the pipeline
    is invoked twice, also when the run fails. *)
Theorem invoked_nodes_are_a_prefix {W} (E : externals W) (w : W)
    (sp : list string) (s1 : state W) (r : result unit) :
  main E (initial_state w sp) = (s1, r) ->
  map ev_node (log s1)
    = firstn (List.length (log s1)) (map nd_id pipeline)
  /\ forall d, In d pipeline -> (invocations (nd_id d) (log s1) <= 1)%nat.
Proof.
  intros Hrun.
  apply main_run_shape in Hrun as (Hpre & _ & Honce & _).
  apply is_prefix_firstn in Hpre. rewrite length_map in Hpre.
  split; [exact Hpre |].
  intros d Hd. eapply each_at_most_once_In; [exact Honce |].
  apply in_map. exact Hd.
Qed.

Lemma invoked_nodes_are_a_prefix_witness :
  map ev_node (log (fst sampler_failure_run))
    = firstn (List.length (log (fst sampler_failure_run)))
             (map nd_id pipeline)
  /\ forall d, In d pipeline ->
       (invocations (nd_id d) (log (fst sampler_failure_run)) <= 1)%nat.
Proof.
  apply (invoked_nodes_are_a_prefix (demo_externals "/" sampler_fails)
           0%nat [] (fst sampler_failure_run) (snd sampler_failure_run)).
  vm_compute. reflexivity.
Defined.

Lemma any_failure_ends_the_run_witness :
  skipn 16 (log (fst sampler_failure_run)) = []
  /\ snd sampler_failure_run = Raise (Failure "sample").
Proof.
  apply (any_failure_ends_the_run (demo_externals "/" sampler_fails)
           0%nat [] (fst sampler_failure_run) (snd sampler_failure_run)
           (firstn 15 (log (fst sampler_failure_run)))
           (skipn 16 (log (fst sampler_failure_run)))
           (nth 15 (log (fst sampler_failure_run)) no_event)
           (Failure "sample")).
  - vm_compute. reflexivity.
  - vm_compute. reflexivity.
  - vm_compute. reflexivity.
Defined.

(** X13: a run prints only at its very end.  A complete run has printed
    the word [finale] and then what the save operation returned, and
    nothing else; a run that raised has printed nothing. *)
Theorem main_prints_at_the_end {W} (E : externals W) (w : W)
    (sp : list string) (s1 : state W) (r : result unit) :
  main E (initial_state w sp) = (s1, r) ->
  match r with
  | Ok _ =>
      exists ev out,
        event_of finale (log s1) = Some ev
        /\ ev_outcome ev = Ok out
        /\ frame_get finale (frame s1) = Some out
        /\ stdout s1 = [VStr "finale"; out]
  | Raise _ => stdout s1 = []
  end.
Proof.
  intros Hrun.
  pose proof (main_run_facts E w sp s1 r Hrun) as (_ & _ & _ & Hkept & _).
  apply main_run_shape in Hrun as (_ & _ & _ & _ & _ & _ & Hprinted & _).
  unfold printed in Hprinted.
  destruct r as [u | e]; [| exact Hprinted].
  destruct (event_of finale (log s1)) as [ev |] eqn:Hev; [| destruct Hprinted].
  destruct (ev_outcome ev) as [out | e] eqn:Hout; [| destruct Hprinted].
  exists ev, out. repeat split; try assumption.
  apply event_of_Some in Hev as [Hin Hnode].
  rewrite <- Hnode. eapply outputs_kept_In; eassumption.
Qed.

Lemma main_prints_at_the_end_witness :
  (exists ev out,
      event_of finale (log (fst demo_run)) = Some ev
      /\ ev_outcome ev = Ok out
      /\ frame_get finale (frame (fst demo_run)) = Some out
      /\ stdout (fst demo_run) = [VStr "finale"; out])
  /\ stdout (fst sampler_failure_run) = [].
Proof.
  split.
  - apply (main_prints_at_the_end demo 0%nat [] (fst demo_run) (Ok tt)).
    vm_compute. reflexivity.
  - apply (main_prints_at_the_end (demo_externals "/" sampler_fails)
             0%nat [] (fst sampler_failure_run)
             (Raise (Failure "sample"))).
    vm_compute. reflexivity.
Defined.

(** X14: every invocation is the one its node declares.  In any run, each
    logged invocation belongs to a node of the pipeline, calls the method
    written there on the instance bound to the variable written there,
    and passes the keyword arguments written there, under the same names
    and in the same order: a literal as it is, [get_value_at_index(x, i)]
    and [x[i]] resolved on what [x] is bound to at that moment, and
    [random.randint(lo, hi)] as the integer that call returned for those
    bounds.  For the sampler, [random.randint(1, 2**64)] was called, its
    result is the [noise_seed] passed, and the sampler ran in the world
    that call left. *)
Theorem invocations_are_as_declared {W} (E : externals W) (w : W)
    (sp : list string) (s1 : state W) (r : result unit) (ev : event) :
  main E (initial_state w sp) = (s1, r) ->
  In ev (log s1) ->
  (exists d,
     In d pipeline /\ nd_id d = ev_node ev
     /\ ev_meth ev = nd_meth d
     /\ frame_get (nd_self d) (ev_frame ev) = Some (ev_self ev)
     /\ map fst (ev_kwargs ev) = map fst (nd_kwargs d)
     /\ forall name a,
          In (name, a) (nd_kwargs d) ->
          exists v, In (name, v) (ev_kwargs ev)
                    /\ arg_denotes E (ev_frame ev) a v)
  /\ (ev_node ev = ksampleradvanced_16 ->
      exists w',
        In ("noise_seed", VInt (snd (random_randint E 1 (2 ^ 64) w')))
           (ev_kwargs ev)
        /\ ev_outcome ev
           = snd (invoke E (ev_self ev) (ev_meth ev) (ev_kwargs ev)
                    (fst (random_randint E 1 (2 ^ 64) w')))).
Proof.
  intros Hrun Hin.
  apply main_run_shape in Hrun
    as (_ & _ & Honce & _ & Hdecl & _ & _ & _ & Hseed).
  split.
  - pose proof (all_as_declared_In _ _ _ Hdecl Hin) as Hev.
    unfold as_declared in Hev.
    destruct (decl_of (ev_node ev)) as [d |] eqn:Hd; [| destruct Hev].
    destruct Hev as (Hmeth & Hself & Hkw).
    apply decl_of_Some in Hd as [Hdin Hid].
    exists d. repeat split; try assumption.
    + eapply kwargs_denote_names, Hkw.
    + intros name a Ha. eapply kwargs_denote_In; eassumption.
  - intros Hnode. unfold seed_drawn in Hseed.
    rewrite (event_of_the_only ksampleradvanced_16 (log s1) ev Hin Hnode)
      in Hseed.
    + destruct Hseed as (w' & Hkw & Hout).
      exists w'. split; [apply kwarg_In, Hkw | exact Hout].
    + eapply each_at_most_once_In; [exact Honce |].
      unfold pipeline_order. simpl. tauto.
Qed.

(** On the demo world, whose [random.randint] answers with its lower
    bound: the sampler is passed the seed 1. *)
Lemma invocations_are_as_declared_witness :
  (exists d,
     In d pipeline
     /\ nd_id d = ev_node (nth 15 (log (fst demo_run)) no_event)
     /\ ev_meth (nth 15 (log (fst demo_run)) no_event) = nd_meth d
     /\ frame_get (nd_self d)
          (ev_frame (nth 15 (log (fst demo_run)) no_event))
        = Some (ev_self (nth 15 (log (fst demo_run)) no_event))
     /\ map fst (ev_kwargs (nth 15 (log (fst demo_run)) no_event))
        = map fst (nd_kwargs d)
     /\ forall name a,
          In (name, a) (nd_kwargs d) ->
          exists v,
            In (name, v) (ev_kwargs (nth 15 (log (fst demo_run)) no_event))
            /\ arg_denotes demo
                 (ev_frame (nth 15 (log (fst demo_run)) no_event)) a v)
  /\ (ev_node (nth 15 (log (fst demo_run)) no_event) = ksampleradvanced_16 ->
      exists w',
        In ("noise_seed", VInt (snd (random_randint demo 1 (2 ^ 64) w')))
           (ev_kwargs (nth 15 (log (fst demo_run)) no_event))
        /\ ev_outcome (nth 15 (log (fst demo_run)) no_event)
           = snd (invoke demo
                    (ev_self (nth 15 (log (fst demo_run)) no_event))
                    (ev_meth (nth 15 (log (fst demo_run)) no_event))
                    (ev_kwargs (nth 15 (log (fst demo_run)) no_event))
                    (fst (random_randint demo 1 (2 ^ 64) w')))).
Proof.
  apply (invocations_are_as_declared demo 0%nat [] (fst demo_run)
           (snd demo_run)).
  - vm_compute. reflexivity.
  - vm_compute. do 15 right. left. reflexivity.
Defined.

(** X15: [main] never rebinds a local.  In any run, whatever a variable
    is bound to when one operation is invoked, it is bound to the same
    value at every later invocation and at the end of the run. *)
Theorem locals_are_never_rebound {W} (E : externals W) (w : W)
    (sp : list string) (s1 : state W) (r : result unit)
    (pre mid post : list event) (ev1 ev2 : event) (x : var) (v : value) :
  main E (initial_state w sp) = (s1, r) ->
  log s1 = (pre ++ ev1 :: mid ++ ev2 :: post)%list ->
  frame_get x (ev_frame ev1) = Some v ->
  frame_get x (ev_frame ev2) = Some v /\ frame_get x (frame s1) = Some v.
Proof.
  intros Hrun Hlog Hget.
  apply main_run_shape in Hrun as (_ & _ & _ & _ & _ & Hgrow & _).
  destruct (frames_grow_at _ _ _ Hgrow _ _ _ Hlog) as [_ Hafter].
  destruct (frames_grow_at _ _ _ Hafter mid ev2 post eq_refl)
    as [Hle Hrest].
  split; [apply Hle, Hget |].
  apply (frames_grow_final _ _ _ Hrest). apply Hle, Hget.
Qed.

Lemma locals_are_never_rebound_witness :
  frame_get cliptextencode
    (ev_frame (nth 8 (log (fst demo_run)) no_event))
  = Some (VObj "CLIPTextEncode" 4)
  /\ frame_get cliptextencode (frame (fst demo_run))
     = Some (VObj "CLIPTextEncode" 4).
Proof.
  apply (locals_are_never_rebound demo 0%nat [] (fst demo_run)
           (snd demo_run) (firstn 1 (log (fst demo_run)))
           (firstn 6 (skipn 2 (log (fst demo_run))))
           (skipn 9 (log (fst demo_run)))
           (nth 1 (log (fst demo_run)) no_event)
           (nth 8 (log (fst demo_run)) no_event)).
  - vm_compute. reflexivity.
  - vm_compute. reflexivity.
  - vm_compute. reflexivity.
Defined.

Lemma in_two_split {A} (l : list A) (a b : A) :
  In a l -> In b l ->
  a = b
  \/ (exists pre mid post, l = (pre ++ a :: mid ++ b :: post)%list)
  \/ (exists pre mid post, l = (pre ++ b :: mid ++ a :: post)%list).
Proof.
  intros Ha Hb.
  apply in_split in Ha as (l1 & l2 & ->).
  apply in_app_or in Hb as [Hb | [Hb | Hb]].
  - right. right. apply in_split in Hb as (p & m & ->).
    exists p, m, l2. rewrite <- app_assoc. reflexivity.
  - left. exact Hb.
  - right. left. apply in_split in Hb as (m & p & ->).
    exists l1, m, p. reflexivity.
Qed.

Lemma event_of_in_map (x : var) (l : list event) :
  In x (map ev_node l) -> exists ev, event_of x l = Some ev.
Proof.
  unfold event_of. induction l as [| ev rest IH]; simpl; [tauto |].
  intros [Hx | Hin].
  - rewrite Hx, var_eqb_refl. eauto.
  - destruct (var_eqb (ev_node ev) x); eauto.
Qed.

(** X16: calls written on one variable reach one instance.  In any run,
    two invocations whose nodes name the same instance variable (the four
    text encodings, the two ControlNet loads, the two preprocessor calls,
    the two ControlNet applications) are made on the same object. *)
Theorem nodes_share_their_instance {W} (E : externals W) (w : W)
    (sp : list string) (s1 : state W) (r : result unit)
    (ev1 ev2 : event) (d1 d2 : node_decl) :
  main E (initial_state w sp) = (s1, r) ->
  In ev1 (log s1) -> In ev2 (log s1) ->
  decl_of (ev_node ev1) = Some d1 -> decl_of (ev_node ev2) = Some d2 ->
  nd_self d1 = nd_self d2 ->
  ev_self ev1 = ev_self ev2.
Proof.
  intros Hrun Hin1 Hin2 Hd1 Hd2 Hself.
  apply main_run_shape in Hrun as (_ & _ & _ & _ & Hdecl & Hgrow & _).
  pose proof (all_as_declared_In _ _ _ Hdecl Hin1) as H1.
  pose proof (all_as_declared_In _ _ _ Hdecl Hin2) as H2.
  unfold as_declared in H1, H2. rewrite Hd1 in H1. rewrite Hd2 in H2.
  destruct H1 as (_ & Hs1 & _). destruct H2 as (_ & Hs2 & _).
  destruct (in_two_split _ _ _ Hin1 Hin2)
    as [-> | [(pre & mid & post & Hl) | (pre & mid & post & Hl)]].
  - congruence.
  - destruct (frames_grow_at _ _ _ Hgrow _ _ _ Hl) as [_ Hafter].
    destruct (frames_grow_at _ _ _ Hafter mid ev2 post eq_refl) as [Hle _].
    apply Hle in Hs1. congruence.
  - destruct (frames_grow_at _ _ _ Hgrow _ _ _ Hl) as [_ Hafter].
    destruct (frames_grow_at _ _ _ Hafter mid ev1 post eq_refl) as [Hle _].
    apply Hle in Hs2. congruence.
Qed.

Lemma nodes_share_their_instance_witness :
  ev_self (nth 1 (log (fst demo_run)) no_event)
  = ev_self (nth 8 (log (fst demo_run)) no_event).
Proof.
  apply (nodes_share_their_instance demo 0%nat [] (fst demo_run)
           (snd demo_run) (nth 1 (log (fst demo_run)) no_event)
           (nth 8 (log (fst demo_run)) no_event)
           decl_cliptextencode_6 decl_cliptextencode_24).
  - vm_compute. reflexivity.
  - vm_compute. do 1 right. left. reflexivity.
  - vm_compute. do 8 right. left. reflexivity.
  - vm_compute. reflexivity.
  - vm_compute. reflexivity.
  - reflexivity.
Defined.

(** X17: the decode output is read by plain subscription, without the
    fallback.  In any run in which the decode operation returns something
    that [[0]] cannot index, a keyed envelope included, the save operation
    is not invoked and the run does not complete, although every other
    reference in the pipeline accepts such an envelope. *)
Theorem decode_output_needs_position_0 {W} (E : externals W) (w : W)
    (sp : list string) (s1 : state W) (r : result unit) (evD : event)
    (decoded : value) (e : exn) :
  main E (initial_state w sp) = (s1, r) ->
  event_of vaedecode_8 (log s1) = Some evD ->
  ev_outcome evD = Ok decoded ->
  getitem decoded (KInt 0) = Raise e ->
  invocations finale (log s1) = 0%nat /\ r <> Ok tt.
Proof.
  intros Hrun HevD Hout Hsub.
  apply main_run_shape in Hrun
    as (_ & Hcomplete & _ & _ & _ & _ & _ & Hsave & _).
  assert (Hnone : event_of finale (log s1) = None).
  { unfold save_subscripts_decode in Hsave. rewrite HevD, Hout in Hsave.
    destruct (event_of finale (log s1)) as [evS |]; [| reflexivity].
    destruct (kwarg "images" (ev_kwargs evS)); [congruence | destruct Hsave]. }
  split; [apply no_event_not_invoked, Hnone |].
  intros ->. simpl in Hcomplete.
  destruct (event_of_in_map finale (log s1)) as (ev & Hev);
    [| congruence].
  rewrite Hcomplete. vm_compute. tauto.
Qed.

Lemma decode_output_needs_position_0_witness :
  (invocations finale (log (fst envelope_run)) = 0%nat
   /\ snd envelope_run <> Ok tt)
  /\ snd envelope_run = Raise (KeyError (KInt 0))
  /\ get_value_at_index
       (VDict [(KStr "ui", VDict []); (KStr "result", VList [VOpaque 58])]) 0
     = Ok (VOpaque 58).
Proof.
  split; [| split; vm_compute; reflexivity].
  apply (decode_output_needs_position_0 demo_envelope 0%nat []
           (fst envelope_run) (snd envelope_run)
           (nth 16 (log (fst envelope_run)) no_event)
           (VDict [(KStr "ui", VDict []); (KStr "result", VList [VOpaque 58])])
           (KeyError (KInt 0))).
  - vm_compute. reflexivity.
  - vm_compute. reflexivity.
  - vm_compute. reflexivity.
  - vm_compute. reflexivity.
Defined.

(** X18: what a node returned stays in the locals.  In any run, complete
    or not, the output of every invocation that returned is bound to the
    node's variable at the end of the run. *)
Theorem returned_outputs_stay_bound {W} (E : externals W) (w : W)
    (sp : list string) (s1 : state W) (r : result unit) (ev : event)
    (out : value) :
  main E (initial_state w sp) = (s1, r) ->
  In ev (log s1) -> ev_outcome ev = Ok out ->
  frame_get (ev_node ev) (frame s1) = Some out.
Proof.
  intros Hrun Hin Hout.
  apply main_run_facts in Hrun as (_ & _ & _ & Hkept & _).
  eapply outputs_kept_In; eassumption.
Qed.

Lemma returned_outputs_stay_bound_witness :
  frame_get (ev_node (nth 14 (log (fst sampler_failure_run)) no_event))
            (frame (fst sampler_failure_run))
  = Some (VList [VOpaque 52; VOpaque 53; VOpaque 54]).
Proof.
  apply (returned_outputs_stay_bound (demo_externals "/" sampler_fails)
           0%nat [] (fst sampler_failure_run) (snd sampler_failure_run)).
  - vm_compute. reflexivity.
  - vm_compute. do 14 right. left. reflexivity.
  - vm_compute. reflexivity.
Defined.

(** X19: a reference reads what its producer returned.  In any run, for
    every invocation and every keyword argument written
    [get_value_at_index(x, i)], node [x] was invoked earlier and returned
    a collection, and the argument passed is what index [i] of that very
    collection resolves to. *)
Theorem references_read_the_producers_output {W} (E : externals W) (w : W)
    (sp : list string) (s1 : state W) (r : result unit)
    (pre post : list event) (ev : event) (d : node_decl) (name : string)
    (x : var) (i : Z) :
  main E (initial_state w sp) = (s1, r) ->
  log s1 = (pre ++ ev :: post)%list ->
  decl_of (ev_node ev) = Some d ->
  In (name, Out x i) (nd_kwargs d) ->
  exists evx out v,
    In evx pre /\ ev_node evx = x /\ ev_outcome evx = Ok out
    /\ get_value_at_index out i = Ok v
    /\ In (name, v) (ev_kwargs ev).
Proof.
  intros Hrun Hlog Hd Hkw.
  pose proof (main_run_facts E w sp s1 r Hrun) as (Htopo & _).
  apply main_run_shape in Hrun as (_ & _ & _ & _ & Hdecl & _).
  pose proof (topo_ok_at _ _ Htopo _ _ _ Hlog) as Hall. simpl in Hall.
  unfold refs_of in Hall. rewrite Hd in Hall.
  assert (Hx : In x (refs d)).
  { unfold refs. apply in_flat_map. exists (name, Out x i).
    split; [exact Hkw | left; reflexivity]. }
  destruct (produced_inv _ _ _ (all_produced_In _ _ _ _ Hall Hx))
    as (evx & out & Hin & Hnode & Hout & Hfr).
  assert (Hev : In ev (log s1))
    by (rewrite Hlog; apply in_elt).
  pose proof (all_as_declared_In _ _ _ Hdecl Hev) as Has.
  unfold as_declared in Has. rewrite Hd in Has.
  destruct Has as (_ & _ & Hden).
  destruct (kwargs_denote_In _ _ _ _ _ _ Hden Hkw) as (v & Hv & Harg).
  simpl in Harg. rewrite Hfr in Harg.
  exists evx, out, v. auto.
Qed.

Lemma references_read_the_producers_output_witness :
  exists evx out v,
    In evx (firstn 13 (log (fst demo_run)))
    /\ ev_node evx = controlnetapplyadvanced_25
    /\ ev_outcome evx = Ok out
    /\ get_value_at_index out 1 = Ok v
    /\ In ("negative", v) (ev_kwargs (nth 13 (log (fst demo_run)) no_event)).
Proof.
  apply (references_read_the_producers_output demo 0%nat [] (fst demo_run)
           (snd demo_run) (firstn 13 (log (fst demo_run)))
           (skipn 14 (log (fst demo_run)))
           (nth 13 (log (fst demo_run)) no_event)
           decl_controlnetapplyadvanced_30 "negative"
           controlnetapplyadvanced_25 1).
  - vm_compute. reflexivity.
  - vm_compute. reflexivity.
  - vm_compute. reflexivity.
  - simpl. tauto.
Defined.
